(** * tap_xero: schema resolution, catalog metadata, the resumable
      sync scheduler and the secret rotation of [main_impl]

    A shallow embedding of [tap_xero/__init__.py].  Python dictionaries
    that are only looked up and updated ([ctx.state], [args.config],
    [os.environ], the [refs] of [load_schema]) are finite maps; JSON
    objects and the compiled metadata keep their insertion order in
    association lists.  Exceptions are results, output and calls to the
    collaborators are recorded in a trace of events. *)

From Stdlib Require Import ZArith Ascii DecimalString DecimalPos.
From stdpp Require Import base tactics option list strings gmap.

(** ** Exceptions and results *)

(** A raised exception, identified by the name of its class. *)
Inductive exn : Type := Exc (cls : string).

Definition ValueError : exn := Exc "ValueError".
Definition KeyError : exn := Exc "KeyError".
Definition TypeError : exn := Exc "TypeError".
Definition AttributeError : exn := Exc "AttributeError".
Definition RecursionError : exn := Exc "RecursionError".
Definition PlainException : exn := Exc "Exception".

(** Error kinds the specification names; nothing in the module raises
    them. *)
Definition InvalidResumeStateError : exn := Exc "InvalidResumeStateError".
Definition SchemaCycleError : exn := Exc "SchemaCycleError".

Inductive result (A : Type) : Type :=
| Ok (a : A)
| Raise (e : exn).
Arguments Ok {A} a.
Arguments Raise {A} e.

Global Instance result_ret : MRet result := λ A a, Ok a.
Global Instance result_bind : MBind result := λ A B f m,
  match m with
  | Ok a => f a
  | Raise e => Raise e
  end.

(** ** JSON values *)

(** Numbers are integers: no number is inspected beyond its truth
    value. *)
#[local] Set Warnings "-register-all".
Inductive json : Type :=
| JNull
| JBool (b : bool)
| JNum (n : Z)
| JStr (s : string)
| JArr (xs : list json)
| JObj (kvs : list (string * json)).

(** [bool(v)] of Python. *)
Definition truthy (v : json) : bool :=
  match v with
  | JNull => false
  | JBool b => b
  | JNum n => negb (n =? 0)%Z
  | JStr s => negb (String.eqb s EmptyString)
  | JArr xs => negb (bool_decide (xs = []))
  | JObj kvs => negb (bool_decide (kvs = []))
  end.

(** [s == v] for a string [s]. *)
Definition str_eq (v : json) (s : string) : bool :=
  match v with
  | JStr t => String.eqb s t
  | _ => false
  end.

(** ** Insertion-ordered dictionaries *)

Section dict.
Context {K V : Type} `{EqDecision K}.

Fixpoint dict_get (k : K) (d : list (K * V)) : option V :=
  match d with
  | [] => None
  | (k', v) :: d' => if decide (k' = k) then Some v else dict_get k d'
  end.

(** [d[k] = v]: an existing key keeps its place, a new one goes last. *)
Fixpoint dict_set (k : K) (v : V) (d : list (K * V)) : list (K * V) :=
  match d with
  | [] => [(k, v)]
  | (k', v') :: d' =>
      if decide (k' = k) then (k, v) :: d' else (k', v') :: dict_set k v d'
  end.

End dict.

(** ** Python lists of strings *)

(** [l.index(v)]: the position of the first element equal to [v],
    [ValueError] when there is none. *)
Definition list_index (l : list string) (v : json) : result nat :=
  match list_find (λ s, str_eq v s = true) l with
  | Some (i, _) => Ok i
  | None => Raise ValueError
  end.

(** [s in l]. *)
Definition str_in (s : string) (l : list string) : bool := bool_decide (s ∈ l).

(** ** Python strings *)

(** [s.lower()], on ASCII letters. *)
Definition ascii_lower (c : ascii) : ascii :=
  let n := nat_of_ascii c in
  if (65 <=? n) && (n <=? 90) then ascii_of_nat (n + 32) else c.

Fixpoint lower (s : string) : string :=
  match s with
  | EmptyString => EmptyString
  | String c s' => String (ascii_lower c) (lower s')
  end.

(** [s.split(sep)] for a one-character separator: never empty. *)
Fixpoint split (sep : ascii) (s : string) : list string :=
  match s with
  | EmptyString => [EmptyString]
  | String c s' =>
      if decide (c = sep) then EmptyString :: split sep s'
      else match split sep s' with
           | piece :: pieces => String c piece :: pieces
           | [] => [String c EmptyString]
           end
  end.

(** [l.pop()] of a list that is not empty: its last element. *)
Definition pop_last (l : list string) : string := default EmptyString (last l).

Definition is_space (c : ascii) : bool :=
  let n := nat_of_ascii c in (n =? 32) || ((9 <=? n) && (n <=? 13)).

Definition digit_of (c : ascii) : option Z :=
  let n := nat_of_ascii c in
  if (48 <=? n) && (n <=? 57) then Some (Z.of_nat (n - 48)) else None.

(** Decimal digits, single underscores allowed between them. *)
Fixpoint parse_digits (acc : Z) (after_digit : bool) (l : list ascii)
    : option Z :=
  match l with
  | [] => if after_digit then Some acc else None
  | c :: l' =>
      if decide (c = "_"%char)
      then (if after_digit then parse_digits acc false l' else None)
      else match digit_of c with
           | Some d => parse_digits (10 * acc + d) true l'
           | None => None
           end
  end.

Fixpoint dropwhile_space (l : list ascii) : list ascii :=
  match l with
  | c :: l' => if is_space c then dropwhile_space l' else l
  | [] => []
  end.

Definition strip (l : list ascii) : list ascii :=
  reverse (dropwhile_space (reverse (dropwhile_space l))).

(** [int(s)]: surrounding white space, an optional sign, decimal
    digits; [ValueError] otherwise. *)
Definition py_int (s : string) : result Z :=
  let parsed :=
    match strip (String.list_ascii_of_string s) with
    | c :: l =>
        if decide (c = "-"%char) then Z.opp <$> parse_digits 0 false l
        else if decide (c = "+"%char) then parse_digits 0 false l
        else parse_digits 0 false (c :: l)
    | [] => None
    end in
  match parsed with
  | Some n => Ok n
  | None => Raise ValueError
  end.

(** [str(n)] *)
Definition py_str_of_int (n : Z) : string :=
  NilZero.string_of_int (Z.to_int n).

(** ** Reference placeholders

    The placeholders of a schema document that still await a schema:
    every string under a ["$ref"] key of an object, anywhere in the
    document. *)
Fixpoint unresolved_refs (doc : json) : list string :=
  match doc with
  | JObj kvs =>
      flat_map (λ kv : string * json,
                  if String.eqb kv.1 "$ref"
                  then match kv.2 with JStr id => [id] | _ => [] end
                  else unresolved_refs kv.2) kvs
  | JArr xs => flat_map unresolved_refs xs
  | _ => []
  end.

(** ** Data model *)

(** The content of a schema file: the [tap_schema_dependencies] entry,
    a list of stream ids, when the file has one, and the other entries
    of the JSON object. *)
Record SchemaFile : Type := {
  tap_schema_dependencies : option (list string);
  schema_body : list (string * json);
}.

(** An element of [metadata.to_list]. *)
Record MetadataEntry : Type := {
  breadcrumb : list string;
  metadata : list (string * json);
}.

Record CatalogEntry : Type := {
  entry_stream : string;
  entry_tap_stream_id : string;
  key_properties : list string;
  entry_schema : json;
  entry_metadata : list MetadataEntry;
}.

(** [Context(config, state, catalog, config_path)]. *)
Record Ctx : Type := {
  config : gmap string json;
  state : gmap string json;
  catalog : list CatalogEntry;
  config_path : string;
}.

(** What the process does to the outside, in order. *)
Inductive Event : Type :=
| ERefreshCredentials
| ECheckPlatformAccess
| EWriteState (st : gmap string json)
| EWriteSchema (stream_name : string) (schema : json) (keys : list string)
| ELogInfo (msg : string)
| ELogCritical (e : exn)
| EStreamSync (stream_name : string) (out : list json)
| EAccessSecretVersion (name : string)
| EAddSecretVersion (parent payload : string)
| EDestroySecretVersion (name : string)
| EDumpCatalog (c : list CatalogEntry)
| EPrint.

(** A stream descriptor of [streams.all_streams].  [stream_sync] is its
    [sync(ctx)] method: it may update the context, writes messages and
    may raise. *)
Record Stream : Type := {
  tap_stream_id : string;
  pk_fields : list string;
  replication_method : string;
  bookmark_key : option string;
  stream_sync : Ctx → result unit * Ctx * list json;
}.

(** ** The state, trace and exception monad *)

Definition M (S A : Type) : Type := S → result A * S * list Event.

Global Instance M_ret {S} : MRet (M S) := λ A a s, (Ok a, s, []).
Global Instance M_bind {S} : MBind (M S) := λ A B f m s,
  match m s with
  | (Ok a, s', t) => let '(r, s'', t') := f a s' in (r, s'', t ++ t')
  | (Raise e, s', t) => (Raise e, s', t)
  end.

Definition emit {S} (e : Event) : M S unit := λ s, (Ok (), s, [e]).
Definition gets {S A} (f : S → A) : M S A := λ s, (Ok (f s), s, []).
Definition modify {S} (f : S → S) : M S unit := λ s, (Ok (), f s, []).
Definition lift {S A} (r : result A) : M S A := λ s, (r, s, []).

(** [for x in l: body(x)]. *)
Fixpoint for_each {S A} (l : list A) (body : A → M S unit) : M S unit :=
  match l with
  | [] => mret ()
  | x :: l' => body x ;; for_each l' body
  end.

Ltac unfold_M :=
  unfold mbind, M_bind, mret, M_ret, emit, gets, modify, lift in *;
  simpl in *.

(** ** Collaborators

    Everything [__init__.py] imports: the stream descriptors of
    [streams], the methods of [Context] other than [write_state], and
    the [singer] library. *)
Class Platform : Type := {
  (** [streams.all_streams], the declared order. *)
  all_streams : list Stream;
  (** How many nested calls of [load_schema] fit under the
      interpreter's recursion limit. *)
  recursion_limit : nat;
  (** [utils.load_json(get_abs_path(path))], by relative path. *)
  load_json : string → result SchemaFile;
  (** [singer.resolve_schema_references(schema, refs)]: the schema it
      leaves behind. *)
  resolve_schema_references : json → gmap string json → result json;
  (** [Schema.from_dict(schema_dict)]: the [Schema] object, read as the
      document it holds. *)
  schema_from_dict : json → result json;
  (** [CatalogEntry.is_selected()]. *)
  is_selected : CatalogEntry → bool;
  (** [Context.refresh_credentials] and [Context.check_platform_access]:
      they work on the configuration and may replace the refresh
      token. *)
  refresh_credentials : gmap string json → result (gmap string json);
  check_platform_access : gmap string json → result (gmap string json);
}.

(** What [utils.parse_args] returns. *)
Record Args : Type := {
  args_config : gmap string json;
  args_state : gmap string json;
  args_catalog : option (list CatalogEntry);
  args_discover : bool;
  args_config_path : string;
}.

(** The process around [main_impl]: command line, environment, the
    secret manager client and [json.loads]. *)
Class Process : Type := {
  parse_args : list string → result Args;
  environ : gmap string string;
  from_service_account_file : option string → result unit;
  (** The payload of the answer, decoded. *)
  access_secret_version : string → result string;
  json_loads : string → result json;
  (** The name of the version it made. *)
  add_secret_version : string → string → result string;
  destroy_secret_version : string → result unit;
}.

Section tap.
Context `{Platform} `{Process}.

(** Modelled from the spec: [streams.all_stream_ids], which is not in
    this module, holds the ids of the declared streams in declared
    order ("that stream's position in the fixed declared stream
    order"). *)
Definition all_stream_ids : list string := tap_stream_id <$> all_streams.

(** ** [load_schema] *)

Definition schema_path (tap_stream_id : string) : string :=
  "schemas/" +:+ tap_stream_id +:+ ".json".

(** [for sub_stream_id in dependencies: refs[sub_stream_id] = load(sub_stream_id)] *)
Fixpoint load_refs (load : string → result json) (dependencies : list string)
    (refs : gmap string json) : result (gmap string json) :=
  match dependencies with
  | [] => Ok refs
  | sub_stream_id :: rest =>
      sub ← load sub_stream_id;
      load_refs load rest (<[sub_stream_id := sub]> refs)
  end.

(** [depth] is the number of frames left; a call that finds none raises
    [RecursionError]. *)
Fixpoint load_schema_at (depth : nat) (tap_stream_id : string) : result json :=
  match depth with
  | 0 => Raise RecursionError
  | S depth' =>
      file ← load_json (schema_path tap_stream_id);
      let schema := JObj (schema_body file) in
      let dependencies := default [] (tap_schema_dependencies file) in
      refs ← load_refs (load_schema_at depth') dependencies ∅;
      if decide (dom refs = ∅)
      then Ok schema
      else resolve_schema_references schema refs
  end.

Definition load_schema (tap_stream_id : string) : result json :=
  load_schema_at recursion_limit tap_stream_id.

(** ** [load_metadata] *)

(** The dictionary of [singer.metadata]: breadcrumb to annotations. *)
Definition compiled_metadata : Type :=
  list (list string * list (string * json)).

Definition metadata_new : compiled_metadata := [].

(** [metadata.write]: [None] is refused, an existing breadcrumb is
    updated, a new one is added. *)
Definition metadata_write (mdata : compiled_metadata) (bc : list string)
    (k : string) (val : json) : result compiled_metadata :=
  match val with
  | JNull => Raise PlainException
  | _ =>
      match dict_get bc mdata with
      | Some d => Ok (dict_set bc (dict_set k val d) mdata)
      | None => Ok (dict_set bc [(k, val)] mdata)
      end
  end.

Definition metadata_to_list (mdata : compiled_metadata) : list MetadataEntry :=
  (λ kv, {| breadcrumb := kv.1; metadata := kv.2 |}) <$> mdata.

(** [schema['properties'].keys()] *)
Definition properties_keys (schema : json) : result (list string) :=
  match schema with
  | JObj kvs =>
      match dict_get "properties" kvs with
      | Some (JObj props) => Ok (props.*1)
      | Some _ => Raise AttributeError
      | None => Raise KeyError
      end
  | _ => Raise TypeError
  end.

(** [stream.bookmark_key] as a truth value. *)
Definition bookmark_key_set (stream : Stream) : bool :=
  match bookmark_key stream with
  | Some k => negb (String.eqb k EmptyString)
  | None => false
  end.

(** [field_name in stream.pk_fields or field_name == stream.bookmark_key] *)
Definition is_automatic (stream : Stream) (field_name : string) : bool :=
  bool_decide (field_name ∈ pk_fields stream) ||
  bool_decide (Some field_name = bookmark_key stream).

(** The inclusion class the loop of [load_metadata] writes for a field. *)
Definition inclusion_class (stream : Stream) (field_name : string) : json :=
  JStr (if is_automatic stream field_name then "automatic" else "available").

Fixpoint write_inclusions (stream : Stream) (field_names : list string)
    (mdata : compiled_metadata) : result compiled_metadata :=
  match field_names with
  | [] => Ok mdata
  | field_name :: rest =>
      mdata ← (if is_automatic stream field_name
               then metadata_write mdata ["properties"; field_name]
                      "inclusion" (JStr "automatic")
               else metadata_write mdata ["properties"; field_name]
                      "inclusion" (JStr "available"));
      write_inclusions stream rest mdata
  end.

Definition load_metadata (stream : Stream) (schema : json)
    : result (list MetadataEntry) :=
  let mdata := metadata_new in
  mdata ← metadata_write mdata [] "table-key-properties"
            (JArr (JStr <$> pk_fields stream));
  mdata ← metadata_write mdata [] "forced-replication-method"
            (JStr (replication_method stream));
  mdata ← (match bookmark_key stream with
           | Some k =>
               if bookmark_key_set stream
               then metadata_write mdata [] "valid-replication-keys"
                      (JArr [JStr k])
               else Ok mdata
           | None => Ok mdata
           end);
  field_names ← properties_keys schema;
  mdata ← write_inclusions stream field_names mdata;
  Ok (metadata_to_list mdata).

(** The annotation [k] at [bc] in a metadata list: the first entry for
    the breadcrumb decides. *)
Definition metadata_lookup (mdata : list MetadataEntry) (bc : list string)
    (k : string) : option json :=
  entry ← list_find (λ entry, breadcrumb entry = bc) mdata;
  dict_get k (metadata entry.2).

(** ** [discover] *)

Definition with_config (cfg : gmap string json) (ctx : Ctx) : Ctx :=
  {| config := cfg; state := state ctx; catalog := catalog ctx;
     config_path := config_path ctx |}.

Definition with_state (st : gmap string json) (ctx : Ctx) : Ctx :=
  {| config := config ctx; state := st; catalog := catalog ctx;
     config_path := config_path ctx |}.

(** A method of [Context] that works on the configuration. *)
Definition on_config (ev : Event)
    (f : gmap string json → result (gmap string json)) : M Ctx unit :=
  λ ctx,
    match f (config ctx) with
    | Ok cfg => (Ok (), with_config cfg ctx, [ev])
    | Raise e => (Raise e, ctx, [ev])
    end.

Definition ctx_refresh_credentials : M Ctx unit :=
  on_config ERefreshCredentials refresh_credentials.

Definition ctx_check_platform_access : M Ctx unit :=
  on_config ECheckPlatformAccess check_platform_access.

Fixpoint discover_streams (streams : list Stream)
    (entries : list CatalogEntry) : result (list CatalogEntry) :=
  match streams with
  | [] => Ok entries
  | stream :: rest =>
      schema_dict ← load_schema (tap_stream_id stream);
      mdata ← load_metadata stream schema_dict;
      schema ← schema_from_dict schema_dict;
      discover_streams rest
        (entries ++ [{| entry_stream := tap_stream_id stream;
                        entry_tap_stream_id := tap_stream_id stream;
                        key_properties := pk_fields stream;
                        entry_schema := schema;
                        entry_metadata := mdata |}])
  end.

Definition discover : M Ctx (list CatalogEntry) :=
  ctx_check_platform_access;;
  lift (discover_streams all_streams []).

(** ** [sync] *)

(** Modelled from the spec: [Context.write_state], which is not in this
    module, persists the state as it is at the call
    ("writeState(state)"). *)
Definition ctx_write_state : M Ctx unit :=
  λ ctx, (Ok (), ctx, [EWriteState (state ctx)]).

(** [ctx.state[k] = v] *)
Definition state_set (k : string) (v : json) : M Ctx unit :=
  modify (λ ctx, with_state (<[k := v]> (state ctx)) ctx).

(** [ctx.state.get(k)] *)
Definition state_get (k : string) : M Ctx json :=
  gets (λ ctx, default JNull (state ctx !! k)).

Definition load_and_write_schema (stream : Stream) : M Ctx unit :=
  schema ← lift (load_schema (tap_stream_id stream));
  emit (EWriteSchema (tap_stream_id stream) schema (pk_fields stream)).

(** [stream.sync(ctx)] *)
Definition call_stream_sync (stream : Stream) : M Ctx unit :=
  λ ctx,
    let '(r, ctx', out) := stream_sync stream ctx in
    (r, ctx', [EStreamSync (tap_stream_id stream) out]).

Definition start_index (currently_syncing : json) : result nat :=
  if truthy currently_syncing
  then list_index all_stream_ids currently_syncing
  else Ok 0.

Definition stream_ids_to_sync (cat : list CatalogEntry) : list string :=
  entry_tap_stream_id <$> filter (λ cs, is_selected cs = true) cat.

Definition streams_from (start_idx : nat) (cat : list CatalogEntry)
    : list Stream :=
  filter (λ s, tap_stream_id s ∈ stream_ids_to_sync cat)
         (drop start_idx all_streams).

(** The body of the loop of [sync]. *)
Definition sync_stream (stream : Stream) : M Ctx unit :=
  state_set "currently_syncing" (JStr (tap_stream_id stream));;
  ctx_write_state;;
  load_and_write_schema stream;;
  emit (ELogInfo ("Syncing stream: " +:+ tap_stream_id stream));;
  call_stream_sync stream.

Definition sync : M Ctx unit :=
  ctx_refresh_credentials;;
  currently_syncing ← state_get "currently_syncing";
  start_idx ← lift (start_index currently_syncing);
  cat ← gets catalog;
  let streams := streams_from start_idx cat in
  for_each streams sync_stream;;
  state_set "currently_syncing" JNull;;
  ctx_write_state.

(** ** [main_impl] and [main] *)

Definition REQUIRED_CONFIG_KEYS : list string :=
  ["start_date"; "client_id"; "client_secret"; "tenant_id"; "refresh_token"].

(** [os.getenv("GOOGLE_SECRET_MANAGER", "false").lower() == "true"] *)
Definition secret_manager_enabled : bool :=
  String.eqb (lower (default "false" (environ !! "GOOGLE_SECRET_MANAGER")))
             "true".

(** [os.environ[k]] *)
Definition environ_get {S} (k : string) : M S string :=
  lift (match environ !! k with
        | Some v => Ok v
        | None => Raise KeyError
        end).

(** [args.config[k] = v] and [args.config[k]] *)
Definition config_set (k : string) (v : json) : M (gmap string json) unit :=
  modify (λ cfg, <[k := v]> cfg).

Definition config_get (k : string) : M (gmap string json) json :=
  λ cfg,
    match cfg !! k with
    | Some v => (Ok v, cfg, [])
    | None => (Raise KeyError, cfg, [])
    end.

(** [obj[k]] for a string [k]. *)
Definition subscript (obj : json) (k : string) : result json :=
  match obj with
  | JObj kvs =>
      match dict_get k kvs with
      | Some v => Ok v
      | None => Raise KeyError
      end
  | _ => Raise TypeError
  end.

(** [v.encode("UTF-8")] *)
Definition encode (v : json) : result string :=
  match v with
  | JStr s => Ok s
  | _ => Raise AttributeError
  end.

Definition client_access_secret_version (name : string)
    : M (gmap string json) string :=
  emit (EAccessSecretVersion name);;
  lift (access_secret_version name).

Definition client_add_secret_version (parent payload : string)
    : M (gmap string json) string :=
  emit (EAddSecretVersion parent payload);;
  lift (add_secret_version parent payload).

Definition client_destroy_secret_version (name : string)
    : M (gmap string json) unit :=
  emit (EDestroySecretVersion name);;
  lift (destroy_secret_version name).

(** Run [body] on [Context(args.config, state, catalog, config_path)];
    the context shares the configuration with [args]. *)
Definition with_context {A} (st : gmap string json)
    (cat : list CatalogEntry) (path : string) (body : M Ctx A)
    : M (gmap string json) A :=
  λ cfg,
    let '(r, ctx, t) :=
      body {| config := cfg; state := st; catalog := cat;
              config_path := path |} in
    (r, config ctx, t).

Definition read_secrets : M (gmap string json) unit :=
  emit (ELogInfo "Getting TAP_XERO_REFRESH_TOKEN from Google Secret Manager");;
  lift (from_service_account_file
          (environ !! "GOOGLE_APPLICATION_CREDENTIALS"));;
  name ← environ_get "SECRET_XERO_REFRESH_TOKEN";
  let secret_TAP_XERO_REFRESH_TOKEN := name +:+ "/versions/latest" in
  name ← environ_get "SECRET_XERO_OAUTH_CREDENTIALS";
  let secret_XERO_OAUTH_CREDENTIALS := name +:+ "/versions/latest" in
  response ← client_access_secret_version secret_TAP_XERO_REFRESH_TOKEN;
  config_set "refresh_token" (JStr response);;
  response ← client_access_secret_version secret_XERO_OAUTH_CREDENTIALS;
  response_json ← lift (json_loads response);
  client_id ← lift (subscript response_json "client_id");
  config_set "client_id" client_id;;
  client_secret ← lift (subscript response_json "client_secret");
  config_set "client_secret" client_secret.

Definition write_back_secret : M (gmap string json) unit :=
  emit (ELogInfo "Writing back TAP_XERO_REFRESH_TOKEN to Google Secret Manager");;
  secret ← environ_get "SECRET_XERO_REFRESH_TOKEN";
  refresh_token ← config_get "refresh_token";
  payload ← lift (encode refresh_token);
  version_name ← client_add_secret_version secret payload;
  newVersionNumber ← lift (py_int (pop_last (split "/" version_name)));
  let oldVersionNumber := (newVersionNumber - 1)%Z in
  name ← environ_get "SECRET_XERO_REFRESH_TOKEN";
  let oldVersion := name +:+ "/versions/" +:+ py_str_of_int oldVersionNumber in
  client_destroy_secret_version oldVersion;;
  emit (ELogInfo ("Destroyed version " +:+ py_str_of_int oldVersionNumber +:+
                  " TAP_XERO_REFRESH_TOKEN from Google Secret Manager")).

Definition run_mode (args : Args) : M (gmap string json) unit :=
  if args_discover args
  then
    cat ← with_context ∅ [] (args_config_path args) discover;
    emit (EDumpCatalog cat);;
    emit EPrint
  else
    cat ← (match args_catalog args with
           | Some cat => mret cat
           | None =>
               emit (ELogInfo
                 "Running sync without provided Catalog. Discovering.");;
               with_context ∅ [] (args_config_path args) discover
           end);
    with_context (args_state args) cat (args_config_path args) sync.

(** The state of [main_impl] is [args.config]; it starts as the
    configuration [parse_args] read. *)
Definition main_impl : M (gmap string json) unit :=
  args ← lift (parse_args REQUIRED_CONFIG_KEYS);
  modify (λ _, args_config args);;
  (if secret_manager_enabled then read_secrets else mret ());;
  run_mode args;;
  (if secret_manager_enabled then write_back_secret else mret ()).

Definition main : M (gmap string json) unit :=
  λ cfg,
    match main_impl cfg with
    | (Raise exc, cfg', t) => (Raise exc, cfg', t ++ [ELogCritical exc])
    | finished => finished
    end.

(** ** What a trace says *)

(** The streams whose extraction was invoked, in order. *)
Definition extracted (t : list Event) : list string :=
  omap (λ e, match e with EStreamSync id _ => Some id | _ => None end) t.

(** The requests that change the secret store. *)
Definition is_secret_write (e : Event) : bool :=
  match e with
  | EAddSecretVersion _ _ | EDestroySecretVersion _ => true
  | _ => false
  end.

Definition secret_writes (t : list Event) : list Event :=
  filter (λ e, is_secret_write e = true) t.

(** An event other than a request that changes the secret store. *)
Definition quiet (e : Event) : Prop := is_secret_write e = false.

(** Every event a computation can leave satisfies [P]. *)
Definition trace_all {S A} (P : Event → Prop) (m : M S A) : Prop :=
  ∀ s, Forall P (m s).2.

(** The working set of [sync]: as [start_idx] and [streams] there. *)
Definition working_set (ctx : Ctx) : result (list Stream) :=
  start_idx ← start_index (default JNull (state ctx !! "currently_syncing"));
  Ok (streams_from start_idx (catalog ctx)).

(** The context after the checkpoint of [stream]. *)
Definition checkpoint (stream : Stream) (ctx : Ctx) : Ctx :=
  with_state (<["currently_syncing" := JStr (tap_stream_id stream)]> (state ctx)) ctx.

(** The traces the loop of [sync] can leave: whole rounds of
    checkpoint, schema, log line and extraction, and then [tail]. *)
Inductive rounds (tail : list Event) : list Event → Prop :=
| rounds_tail : rounds tail tail
| rounds_cons st id schema keys msg out t :
    st !! "currently_syncing" = Some (JStr id) →
    rounds tail t →
    rounds tail (EWriteState st :: EWriteSchema id schema keys ::
                 ELogInfo msg :: EStreamSync id out :: t).

(** A tail holds at most one write of the state. *)
Definition short_tail (tail : list Event) : Prop :=
  tail = [] ∨ ∃ st, tail = [EWriteState st].

(** A schema that loads when the recursion limit is high enough. *)
Definition loads (tap_stream_id : string) : Prop :=
  ∃ depth doc, load_schema_at depth tap_stream_id = Ok doc.

(** The entry [discover] appends for a stream. *)
Definition discovered_entry (stream : Stream) (schema : json)
    (mdata : list MetadataEntry) : CatalogEntry :=
  {| entry_stream := tap_stream_id stream;
     entry_tap_stream_id := tap_stream_id stream;
     key_properties := pk_fields stream;
     entry_schema := schema;
     entry_metadata := mdata |}.

(** What [discover] found for a stream: the metadata is built from the
    document [load_schema] returns, the schema of the entry is what
    [Schema.from_dict] makes of that document. *)
Definition discovered (stream : Stream) (entry : CatalogEntry) : Prop :=
  ∃ schema_dict mdata schema,
    load_schema (tap_stream_id stream) = Ok schema_dict ∧
    load_metadata stream schema_dict = Ok mdata ∧
    schema_from_dict schema_dict = Ok schema ∧
    entry = discovered_entry stream schema mdata.

(** The first thing that goes wrong for a stream: loading its schema,
    building its metadata, or converting the schema. *)
Definition discovery_fails (stream : Stream) (e : exn) : Prop :=
  load_schema (tap_stream_id stream) = Raise e ∨
  (∃ schema_dict,
     load_schema (tap_stream_id stream) = Ok schema_dict ∧
     load_metadata stream schema_dict = Raise e) ∨
  (∃ schema_dict mdata,
     load_schema (tap_stream_id stream) = Ok schema_dict ∧
     load_metadata stream schema_dict = Ok mdata ∧
     schema_from_dict schema_dict = Raise e).

(** The states written, in order, and the one written last. *)
Definition written (t : list Event) : list (gmap string json) :=
  omap (λ e, match e with EWriteState st => Some st | _ => None end) t.

Definition persisted (t : list Event) : option (gmap string json) :=
  last (written t).

(** The [currently_syncing] entries of the states written. *)
Definition markers (t : list Event) : list (option json) :=
  (λ st : gmap string json, st !! "currently_syncing") <$> written t.

(** An event of the scheduler: a state or schema written, an
    extraction, a refresh of the credentials. *)
Definition is_sync_event (e : Event) : bool :=
  match e with
  | ERefreshCredentials | EWriteState _ | EWriteSchema _ _ _
  | EStreamSync _ _ => true
  | _ => false
  end.

(** A request to the secret manager. *)
Definition is_secret_request (e : Event) : bool :=
  match e with
  | EAccessSecretVersion _ | EAddSecretVersion _ _
  | EDestroySecretVersion _ => true
  | _ => false
  end.

(** An event that is no request to the secret manager, and one that is
    no event of the scheduler. *)
Definition no_request (e : Event) : Prop := is_secret_request e = false.
Definition no_sync_event (e : Event) : Prop := is_sync_event e = false.

(** The secrets read or nothing, the secret written back or nothing. *)
Definition secrets_in : M (gmap string json) unit :=
  if secret_manager_enabled then read_secrets else mret ().
Definition secrets_out : M (gmap string json) unit :=
  if secret_manager_enabled then write_back_secret else mret ().

(** A character of a printed number: no white space, no separator, no
    underscore. *)
Definition plain (c : ascii) : bool :=
  negb (is_space c) && bool_decide (c ≠ "/"%char) &&
  bool_decide (c ≠ "_"%char).

(** The entry of a field. *)
Definition field_entry (stream : Stream) (f : string)
    : list string * list (string * json) :=
  (["properties"; f], [("inclusion", inclusion_class stream f)]).

(** The annotations of the root. *)
Definition root_metadata (stream : Stream) : list (string * json) :=
  [("table-key-properties", JArr (JStr <$> pk_fields stream));
   ("forced-replication-method", JStr (replication_method stream))] ++
  match bookmark_key stream with
  | Some k =>
      if bookmark_key_set stream
      then [("valid-replication-keys", JArr [JStr k])] else []
  | None => []
  end.

End tap.

(** * A sample installation

    Three streams in the declared order [bank_transactions], [contacts],
    [invoices]; the invoice schema refers to the contact schema; two
    schema files that depend on each other. *)
Module Sample.

Definition write_one_record (id : string)
    : Ctx → result unit * Ctx * list json :=
  λ ctx, (Ok (), ctx, [JObj [("type", JStr "RECORD"); ("stream", JStr id)]]).

Definition bank_transactions : Stream :=
  {| tap_stream_id := "bank_transactions";
     pk_fields := ["BankTransactionID"];
     replication_method := "INCREMENTAL";
     bookmark_key := Some "UpdatedDateUTC";
     stream_sync := write_one_record "bank_transactions" |}.

Definition contacts : Stream :=
  {| tap_stream_id := "contacts";
     pk_fields := ["ContactID"];
     replication_method := "INCREMENTAL";
     bookmark_key := Some "UpdatedDateUTC";
     stream_sync := write_one_record "contacts" |}.

Definition invoices : Stream :=
  {| tap_stream_id := "invoices";
     pk_fields := ["InvoiceID"];
     replication_method := "INCREMENTAL";
     bookmark_key := Some "UpdatedDateUTC";
     stream_sync := write_one_record "invoices" |}.

(** A stream without a bookmark. *)
Definition currencies : Stream :=
  {| tap_stream_id := "currencies";
     pk_fields := ["Code"];
     replication_method := "FULL_TABLE";
     bookmark_key := None;
     stream_sync := write_one_record "currencies" |}.

Definition string_type : json := JObj [("type", JArr [JStr "null"; JStr "string"])].

Definition object_schema (props : list (string * json)) : list (string * json) :=
  [("type", JArr [JStr "null"; JStr "object"]); ("properties", JObj props)].

Definition contacts_file : SchemaFile :=
  {| tap_schema_dependencies := None;
     schema_body := object_schema
       [("ContactID", string_type); ("Name", string_type);
        ("UpdatedDateUTC", string_type)] |}.

Definition invoices_file : SchemaFile :=
  {| tap_schema_dependencies := Some ["contacts"];
     schema_body := object_schema
       [("InvoiceID", string_type);
        ("Contact", JObj [("$ref", JStr "contacts")]);
        ("UpdatedDateUTC", string_type)] |}.

Definition bank_transactions_file : SchemaFile :=
  {| tap_schema_dependencies := Some [];
     schema_body := object_schema
       [("BankTransactionID", string_type); ("Total", string_type);
        ("UpdatedDateUTC", string_type)] |}.

Definition currencies_file : SchemaFile :=
  {| tap_schema_dependencies := None;
     schema_body := object_schema
       [("Code", string_type); ("Description", string_type)] |}.

(** Two files that name each other. *)
Definition loop_a_file : SchemaFile :=
  {| tap_schema_dependencies := Some ["loop_b"];
     schema_body := object_schema [("b", JObj [("$ref", JStr "loop_b")])] |}.

Definition loop_b_file : SchemaFile :=
  {| tap_schema_dependencies := Some ["loop_a"];
     schema_body := object_schema [("a", JObj [("$ref", JStr "loop_a")])] |}.

(** A file that reaches the two through its second dependency, the
    first being a schema that loads, and one whose first dependency has
    no file. *)
Definition loop_c_file : SchemaFile :=
  {| tap_schema_dependencies := Some ["contacts"; "loop_a"];
     schema_body := object_schema [("a", JObj [("$ref", JStr "loop_a")])] |}.

Definition loop_d_file : SchemaFile :=
  {| tap_schema_dependencies := Some ["missing"; "loop_a"];
     schema_body := object_schema [("a", JObj [("$ref", JStr "loop_a")])] |}.

(** A schema with a list whose [items] is a string, not a schema. *)
Definition payments_file : SchemaFile :=
  {| tap_schema_dependencies := None;
     schema_body := object_schema
       [("PaymentID", string_type);
        ("Lines", JObj [("type", JArr [JStr "null"; JStr "array"]);
                        ("items", JStr "x")])] |}.

Definition files : gmap string SchemaFile :=
  list_to_map
    [("schemas/bank_transactions.json", bank_transactions_file);
     ("schemas/contacts.json", contacts_file);
     ("schemas/invoices.json", invoices_file);
     ("schemas/currencies.json", currencies_file);
     ("schemas/loop_a.json", loop_a_file);
     ("schemas/loop_b.json", loop_b_file);
     ("schemas/loop_c.json", loop_c_file);
     ("schemas/loop_d.json", loop_d_file);
     ("schemas/payments.json", payments_file)].

Definition read_file (path : string) : result SchemaFile :=
  match files !! path with
  | Some file => Ok file
  | None => Raise (Exc "FileNotFoundError")
  end.

(** The first string under a ["$ref"] key of an object. *)
Fixpoint ref_target (kvs : list (string * json)) : option string :=
  match kvs with
  | [] => None
  | (k, v) :: kvs' =>
      if String.eqb k "$ref"
      then match v with JStr id => Some id | _ => ref_target kvs' end
      else ref_target kvs'
  end.

(** A resolver: an object with a reference becomes the schema the
    reference names. *)
Fixpoint inline_refs (refs : gmap string json) (doc : json) : json :=
  match doc with
  | JObj kvs =>
      match ref_target kvs with
      | Some id => default JNull (refs !! id)
      | None =>
          JObj (map (λ kv : string * json,
                       (kv.1, if String.eqb kv.1 "$ref" then kv.2
                              else inline_refs refs kv.2)) kvs)
      end
  | JArr xs => JArr (map (inline_refs refs) xs)
  | _ => doc
  end.

Definition resolve (schema : json) (refs : gmap string json) : result json :=
  if forallb (λ id, bool_decide (is_Some (refs !! id))) (unresolved_refs schema)
  then Ok (inline_refs refs schema)
  else Raise (Exc "RefResolutionError").

(** A conversion to [Schema]: the document has to be an object, and so
    have the schemas under its [properties] and its [items], all the
    way down; the attribute asked of anything else is missing. *)
Fixpoint sub_schemas_are_objects (data : json) : bool :=
  match data with
  | JObj kvs =>
      forallb (λ kv : string * json,
                 if String.eqb kv.1 "properties"
                 then match kv.2 with
                      | JNull => true
                      | JObj props =>
                          forallb (λ p : string * json,
                                     sub_schemas_are_objects p.2) props
                      | _ => false
                      end
                 else if String.eqb kv.1 "items"
                 then match kv.2 with
                      | JNull => true
                      | _ => sub_schemas_are_objects kv.2
                      end
                 else true) kvs
  | _ => false
  end.

Definition from_dict (data : json) : result json :=
  if sub_schemas_are_objects data then Ok data else Raise AttributeError.

(** Selected in the metadata of the root. *)
Definition selected_in_metadata (cs : CatalogEntry) : bool :=
  match entry_metadata cs with
  | {| breadcrumb := []; metadata := [("selected", JBool true)] |} :: _ => true
  | _ => false
  end.

Definition platform : Platform :=
  {| all_streams := [bank_transactions; contacts; invoices];
     recursion_limit := 1000;
     load_json := read_file;
     resolve_schema_references := resolve;
     schema_from_dict := from_dict;
     is_selected := selected_in_metadata;
     refresh_credentials := λ cfg, Ok (<["refresh_token" := JStr "token-2"]> cfg);
     check_platform_access := λ cfg, Ok cfg |}.

Definition entry (id : string) (selected : bool) : CatalogEntry :=
  {| entry_stream := id;
     entry_tap_stream_id := id;
     key_properties := [];
     entry_schema := JObj [];
     entry_metadata :=
       [{| breadcrumb := []; metadata := [("selected", JBool selected)] |}] |}.

Definition a_config : gmap string json :=
  list_to_map
    [("start_date", JStr "2024-01-01T00:00:00Z"); ("client_id", JStr "id");
     ("client_secret", JStr "secret"); ("tenant_id", JStr "tenant");
     ("refresh_token", JStr "token-1")].

Definition context (st : gmap string json) (cat : list CatalogEntry) : Ctx :=
  {| config := a_config; state := st; catalog := cat;
     config_path := "config.json" |}.

(** Contacts and invoices selected, interrupted in invoices. *)
Definition resuming : Ctx :=
  context {["currently_syncing" := JStr "invoices"]}
          [entry "bank_transactions" false; entry "contacts" true;
           entry "invoices" true].

(** A marker no declared stream has. *)
Definition stale : Ctx :=
  context {["currently_syncing" := JStr "nonexistent_stream"]}
          [entry "contacts" true; entry "invoices" true].

(** Invoices and bank transactions selected, in this order, and the
    same selection in declared order; no marker. *)
Definition invoices_first : Ctx :=
  context ∅ [entry "invoices" true; entry "bank_transactions" true].


(** The process: the secret manager is enabled, the store holds six
    versions of the refresh token, the run is a sync that resumes. *)
Definition environment : gmap string string :=
  list_to_map
    [("GOOGLE_SECRET_MANAGER", "True");
     ("GOOGLE_APPLICATION_CREDENTIALS", "/run/secrets/account.json");
     ("SECRET_XERO_REFRESH_TOKEN", "projects/p/secrets/refresh");
     ("SECRET_XERO_OAUTH_CREDENTIALS", "projects/p/secrets/oauth")].

Definition arguments : Args :=
  {| args_config := a_config;
     args_state := state resuming;
     args_catalog := Some (catalog resuming);
     args_discover := false;
     args_config_path := "config.json" |}.

Definition read_secret (name : string) : result string :=
  if String.eqb name "projects/p/secrets/refresh/versions/latest"
  then Ok "token-0"
  else if String.eqb name "projects/p/secrets/oauth/versions/latest"
  then Ok "oauth-document"
  else Raise (Exc "NotFound").

Definition parse_document (text : string) : result json :=
  if String.eqb text "oauth-document"
  then Ok (JObj [("client_id", JStr "id"); ("client_secret", JStr "secret")])
  else Raise (Exc "JSONDecodeError").

Definition process : Process :=
  {| parse_args := λ _, Ok arguments;
     environ := environment;
     from_service_account_file := λ _, Ok ();
     access_secret_version := read_secret;
     json_loads := parse_document;
     add_secret_version := λ parent _, Ok (parent +:+ "/versions/7");
     destroy_secret_version := λ _, Ok () |}.

(** The same with a secret that has no version yet: the version made
    is the first, and there is no version 0 to destroy. *)
Definition first_rotation : Process :=
  {| parse_args := λ _, Ok arguments;
     environ := environment;
     from_service_account_file := λ _, Ok ();
     access_secret_version := read_secret;
     json_loads := parse_document;
     add_secret_version := λ parent _, Ok (parent +:+ "/versions/1");
     destroy_secret_version := λ _, Raise (Exc "NotFound") |}.

(** An installation that declares a stream without a schema file, and
    a selection of all its streams. *)
Definition journals : Stream :=
  {| tap_stream_id := "journals";
     pk_fields := ["JournalID"];
     replication_method := "INCREMENTAL";
     bookmark_key := Some "JournalNumber";
     stream_sync := write_one_record "journals" |}.

Definition broken_platform : Platform :=
  {| all_streams := [bank_transactions; journals; invoices];
     recursion_limit := 1000;
     load_json := read_file;
     resolve_schema_references := resolve;
     schema_from_dict := from_dict;
     is_selected := selected_in_metadata;
     refresh_credentials := λ cfg, Ok (<["refresh_token" := JStr "token-2"]> cfg);
     check_platform_access := λ cfg, Ok cfg |}.

(** An installation that declares the stream of the schema whose
    [items] is a string. *)
Definition payments : Stream :=
  {| tap_stream_id := "payments";
     pk_fields := ["PaymentID"];
     replication_method := "FULL_TABLE";
     bookmark_key := None;
     stream_sync := write_one_record "payments" |}.

Definition malformed_platform : Platform :=
  {| all_streams := [bank_transactions; payments; invoices];
     recursion_limit := 1000;
     load_json := read_file;
     resolve_schema_references := resolve;
     schema_from_dict := from_dict;
     is_selected := selected_in_metadata;
     refresh_credentials := λ cfg, Ok (<["refresh_token" := JStr "token-2"]> cfg);
     check_platform_access := λ cfg, Ok cfg |}.

Definition all_selected : Ctx :=
  context ∅ [entry "bank_transactions" true; entry "journals" true;
             entry "invoices" true].

(** A state with a bookmark beside the marker. *)
Definition bookmarked : Ctx :=
  context (<["bookmarks" := JObj [("invoices", JStr "2024-05-01")]]>
             {["currently_syncing" := JStr "invoices"]})
          [entry "contacts" true; entry "invoices" true].

(** The process without the secret manager, the process in discovery
    mode, and a secret manager that names the new version [latest]. *)
Definition local_process : Process :=
  {| parse_args := λ _, Ok arguments;
     environ := ∅;
     from_service_account_file := λ _, Ok ();
     access_secret_version := read_secret;
     json_loads := parse_document;
     add_secret_version := λ parent _, Ok (parent +:+ "/versions/7");
     destroy_secret_version := λ _, Ok () |}.



Definition unnumbered_process : Process :=
  {| parse_args := λ _, Ok arguments;
     environ := environment;
     from_service_account_file := λ _, Ok ();
     access_secret_version := read_secret;
     json_loads := parse_document;
     add_secret_version := λ parent _, Ok (parent +:+ "/versions/latest");
     destroy_secret_version := λ _, Ok () |}.

(** The value of a result, for a result that is one. *)
Definition value_of {A} (r : result A) (d : A) : A :=
  match r with
  | Ok a => a
  | Raise _ => d
  end.

End Sample.

(** * Properties *)

(** ** Dictionaries *)

Section dict_facts.
Context {K V : Type} `{EqDecision K}.
Lemma dict_get_set_eq (k : K) (v : V) (d : list (K * V)) :
  dict_get k (dict_set k v d) = Some v.
Proof.
  induction d as [|[k' v'] d IH]; simpl.
  - by rewrite decide_True.
  - destruct (decide (k' = k)) as [->|Hne]; simpl.
    + by rewrite decide_True.
    + by rewrite decide_False.
Qed.

Lemma dict_get_set_ne (k k' : K) (v : V) (d : list (K * V)) :
  k ≠ k' → dict_get k' (dict_set k v d) = dict_get k' d.
Proof.
  intros Hne. induction d as [|[k0 v0] d IH]; simpl.
  - by rewrite decide_False.
  - destruct (decide (k0 = k)) as [->|Hne0]; simpl.
    + by rewrite !decide_False.
    + by rewrite IH.
Qed.
End dict_facts.

(** ** JSON documents *)

Lemma json_nested_ind (P : json → Prop) :
  P JNull → (∀ b, P (JBool b)) → (∀ n, P (JNum n)) → (∀ s, P (JStr s)) →
  (∀ xs, Forall P xs → P (JArr xs)) →
  (∀ kvs, Forall (λ kv, P kv.2) kvs → P (JObj kvs)) →
  ∀ doc, P doc.
Proof.
  intros HNull HBool HNum HStr HArr HObj. fix IH 1.
  intros [|b|n|s|xs|kvs]; [done..| |].
  - apply HArr. induction xs as [|x xs IHxs]; constructor; [apply IH|done].
  - apply HObj. induction kvs as [|kv kvs IHkvs]; constructor; [apply IH|done].
Qed.

Lemma elem_of_flat_map {A B} (f : A → list B) (l : list A) (y : B) :
  y ∈ flat_map f l ↔ ∃ x, x ∈ l ∧ y ∈ f x.
Proof.
  rewrite list_elem_of_In, in_flat_map.
  split; intros (x & Hx & Hy); exists x; by rewrite ?list_elem_of_In in *.
Qed.

Lemma flat_map_nil {A B} (f : A → list B) (l : list A) :
  (∀ x, x ∈ l → f x = []) → flat_map f l = [].
Proof.
  intros Hf. apply elem_of_nil_inv. intros y (x & Hx & Hy)%elem_of_flat_map.
  rewrite (Hf x Hx) in Hy. by apply elem_of_nil in Hy.
Qed.

(** ** [load_schema] *)

Section schema_facts.
Context `{Platform}.

Lemma load_refs_ok load dependencies refs0 :
  (∀ d, d ∈ dependencies →
        ∃ doc, load d = Ok doc ∧ unresolved_refs doc = []) →
  (∀ r doc, refs0 !! r = Some doc → unresolved_refs doc = []) →
  ∃ refs,
    load_refs load dependencies refs0 = Ok refs ∧
    (∀ r, is_Some (refs !! r) ↔ is_Some (refs0 !! r) ∨ r ∈ dependencies) ∧
    (∀ r doc, refs !! r = Some doc → unresolved_refs doc = []).
Proof.
  revert refs0. induction dependencies as [|d rest IH]; intros refs0 Hload Hclean.
  { exists refs0. split_and!; [done| |done].
    intros r. rewrite elem_of_nil. tauto. }
  destruct (Hload d) as (doc & Hd & Hdoc); [apply list_elem_of_here|].
  simpl. rewrite Hd. cbn [mbind result_bind].
  destruct (IH (<[d:=doc]> refs0)) as (refs & -> & Hdom & Hclean').
  - intros d' Hd'. by apply Hload, list_elem_of_further.
  - intros r doc'. rewrite lookup_insert.
    case_decide; [by intros [= <-]|by apply Hclean].
  - exists refs. split_and!; [done| |done].
    intros r. rewrite Hdom, elem_of_cons, lookup_insert.
    case_decide; subst; split; intros; [by right; left|by left|..].
    + destruct_or!; [by left|by right; right].
    + destruct_or!; [by left|done|by right].
Qed.

(** Every dependency has a smaller rank and a file, and the references
    of a file are among its dependencies: [load_schema_at] returns a
    document without references as soon as the depth allows for the
    rank. *)
Lemma load_schema_at_acyclic (known : string → Prop) (rank : string → nat) :
  (∀ id, known id →
     ∃ file, load_json (schema_path id) = Ok file ∧
       (∀ d, d ∈ default [] (tap_schema_dependencies file) →
             known d ∧ rank d < rank id) ∧
       (∀ r, r ∈ unresolved_refs (JObj (schema_body file)) →
             r ∈ default [] (tap_schema_dependencies file))) →
  (∀ schema refs,
     (∀ r, r ∈ unresolved_refs schema → is_Some (refs !! r)) →
     (∀ r doc, refs !! r = Some doc → unresolved_refs doc = []) →
     ∃ doc, resolve_schema_references schema refs = Ok doc ∧
            unresolved_refs doc = []) →
  ∀ depth id, known id → rank id < depth →
    ∃ doc, load_schema_at depth id = Ok doc ∧ unresolved_refs doc = [].
Proof.
  intros Hfiles Hresolve.
  induction depth as [|depth IH]; intros id Hid Hrank; [lia|].
  destruct (Hfiles id Hid) as (file & Hfile & Hdeps & Hrefs).
  simpl. rewrite Hfile. cbn [mbind result_bind].
  destruct (load_refs_ok (load_schema_at depth)
              (default [] (tap_schema_dependencies file)) ∅)
    as (refs & -> & Hdom & Hclean).
  { intros d [Hd Hlt]%Hdeps. apply IH; [done|lia]. }
  { intros r doc. by rewrite lookup_empty. }
  cbn [mbind result_bind]. destruct (decide (dom refs = ∅)) as [Hempty|_].
  - eexists. split; [done|]. apply elem_of_nil_inv. intros r Hr.
    assert (is_Some (refs !! r)) as Hsome by (apply Hdom; right; by apply Hrefs).
    apply elem_of_dom in Hsome. rewrite Hempty in Hsome.
    by apply not_elem_of_empty in Hsome.
  - apply Hresolve; [|done]. intros r Hr. apply Hdom. right. by apply Hrefs.
Qed.

(** The loop over the dependencies raises what the first failing
    dependency raises. *)
Lemma load_refs_raises load dependencies refs0 e :
  load_refs load dependencies refs0 = Raise e →
  ∃ d, d ∈ dependencies ∧ load d = Raise e.
Proof.
  revert refs0. induction dependencies as [|d rest IH]; intros refs0; [done|].
  simpl. destruct (load d) as [doc|e'] eqn:Hd; cbn [mbind result_bind].
  - intros (d' & Hd' & He)%IH. exists d'.
    split; [by apply list_elem_of_further|done].
  - intros [= ->]. exists d. split; [apply list_elem_of_here|done].
Qed.

(** A loader that agrees with [load] wherever it does not run out of
    depth gives the same references or runs out of depth. *)
Lemma load_refs_mono load load' dependencies refs0 refs :
  (∀ d doc, d ∈ dependencies → load d = Ok doc →
            load' d = Ok doc ∨ load' d = Raise RecursionError) →
  load_refs load dependencies refs0 = Ok refs →
  load_refs load' dependencies refs0 = Ok refs ∨
  load_refs load' dependencies refs0 = Raise RecursionError.
Proof.
  revert refs0. induction dependencies as [|d rest IH]; intros refs0 Hagree;
    [by left|].
  simpl. destruct (load d) as [doc|e] eqn:Hd; cbn [mbind result_bind]; [|done].
  intros Hrest.
  destruct (Hagree d doc) as [-> | ->];
    [apply list_elem_of_here|done|cbn [mbind result_bind]..|by right].
  apply IH; [|done].
  intros d' doc' Hd'. by apply Hagree, list_elem_of_further.
Qed.

(** The depth decides between the result and [RecursionError] only. *)
Lemma load_schema_at_mono depth id doc :
  load_schema_at depth id = Ok doc →
  ∀ depth', load_schema_at depth' id = Ok doc ∨
            load_schema_at depth' id = Raise RecursionError.
Proof.
  revert id doc. induction depth as [|depth IH]; intros id doc; [done|].
  intros Hdoc [|depth']; [by right|]. revert Hdoc. simpl.
  destruct (load_json (schema_path id)) as [file|e];
    cbn [mbind result_bind]; [|done].
  destruct (load_refs (load_schema_at depth) _ ∅) as [refs|e] eqn:Hrefs;
    cbn [mbind result_bind]; [|done].
  intros Hdoc.
  destruct (load_refs_mono (load_schema_at depth) (load_schema_at depth')
              (default [] (tap_schema_dependencies file)) ∅ refs)
    as [-> | ->];
    [|done|cbn [mbind result_bind]; by left|by right].
  intros d doc' _ Hd. by apply (IH d doc').
Qed.

(** The dependencies before [d] load or run out of depth, and [d] runs
    out of depth: so does the loop. *)
Lemma load_refs_overflow load before d after refs0 :
  (∀ b, b ∈ before →
        (∃ doc, load b = Ok doc) ∨ load b = Raise RecursionError) →
  load d = Raise RecursionError →
  load_refs load (before ++ d :: after) refs0 = Raise RecursionError.
Proof.
  intros Hbefore Hd. revert refs0 Hbefore.
  induction before as [|b before IH]; intros refs0 Hbefore; simpl.
  { by rewrite Hd. }
  destruct (Hbefore b) as [[doc ->] | ->];
    [apply list_elem_of_here|cbn [mbind result_bind]|done].
  apply IH. intros b' Hb'. by apply Hbefore, list_elem_of_further.
Qed.

(** A set of ids, each with a file that has a dependency in the set
    again, the dependencies listed before that one being schemas that
    load: [load_schema_at] never gets through. *)
Lemma load_schema_at_cycle (on_cycle : string → Prop) :
  (∀ id, on_cycle id →
     ∃ file before d after, load_json (schema_path id) = Ok file ∧
       tap_schema_dependencies file = Some (before ++ d :: after) ∧
       on_cycle d ∧ ∀ b, b ∈ before → loads b) →
  ∀ depth id, on_cycle id → load_schema_at depth id = Raise RecursionError.
Proof.
  intros Hcycle. induction depth as [|depth IH]; intros id Hid; [done|].
  destruct (Hcycle id Hid)
    as (file & before & d & after & Hfile & Hdeps & Hd & Hbefore).
  simpl. rewrite Hfile. cbn [mbind result_bind]. rewrite Hdeps. simpl.
  rewrite load_refs_overflow; [done| |by apply IH].
  intros b (depth0 & doc & Hdoc)%Hbefore.
  destruct (load_schema_at_mono _ _ _ Hdoc depth); eauto.
Qed.

(** [load_schema_at] raises nothing of its own but [RecursionError]. *)
Lemma load_schema_at_raises depth id e :
  load_schema_at depth id = Raise e →
  e = RecursionError ∨
  (∃ id', load_json (schema_path id') = Raise e) ∨
  (∃ schema refs, resolve_schema_references schema refs = Raise e).
Proof.
  revert id. induction depth as [|depth IH]; intros id.
  { intros [= <-]. by left. }
  simpl. destruct (load_json (schema_path id)) as [file|e'] eqn:Hfile;
    cbn [mbind result_bind].
  2:{ intros [= ->]. right. left. by exists id. }
  destruct (load_refs (load_schema_at depth) _ ∅) as [refs|e'] eqn:Hrefs;
    cbn [mbind result_bind].
  - destruct (decide (dom refs = ∅)); [done|]. intros He. right. right. eauto.
  - intros [= ->]. apply load_refs_raises in Hrefs as (d & _ & Hd).
    by apply (IH d).
Qed.

(** C3 (as the code has it).  [load_schema] is total: the recursion is
    cut at the recursion limit.  On an acyclic dependency graph, every
    dependency having a file and a smaller rank, references being among
    the dependencies and ranks staying under the recursion limit, it
    returns a document without unresolved references, provided the
    resolver of [singer] leaves none when it is given a resolved schema
    for every reference.  Where the dependencies lead into a cycle, that
    is on a set of ids each of which has a file that lists a dependency
    in the set, the dependencies listed before that one being schemas
    that load, it raises [RecursionError].  Whatever the graph, an
    exception of [load_schema] is [RecursionError] or the exception
    [load_json] raised for a schema file or the resolver raised: the
    module detects no cycles and raises no [SchemaCycleError]. *)
Theorem load_schema_acyclic_or_recursion_error :
  (∀ (known : string → Prop) (rank : string → nat),
     (∀ id, known id →
        ∃ file, load_json (schema_path id) = Ok file ∧
          (∀ d, d ∈ default [] (tap_schema_dependencies file) →
                known d ∧ rank d < rank id) ∧
          (∀ r, r ∈ unresolved_refs (JObj (schema_body file)) →
                r ∈ default [] (tap_schema_dependencies file))) →
     (∀ schema refs,
        (∀ r, r ∈ unresolved_refs schema → is_Some (refs !! r)) →
        (∀ r doc, refs !! r = Some doc → unresolved_refs doc = []) →
        ∃ doc, resolve_schema_references schema refs = Ok doc ∧
               unresolved_refs doc = []) →
     ∀ id, known id → rank id < recursion_limit →
       ∃ doc, load_schema id = Ok doc ∧ unresolved_refs doc = []) ∧
  (∀ on_cycle : string → Prop,
     (∀ id, on_cycle id →
        ∃ file before d after, load_json (schema_path id) = Ok file ∧
          tap_schema_dependencies file = Some (before ++ d :: after) ∧
          on_cycle d ∧ ∀ b, b ∈ before → loads b) →
     ∀ id, on_cycle id → load_schema id = Raise RecursionError) ∧
  (∀ id e, load_schema id = Raise e →
     e = RecursionError ∨
     (∃ id', load_json (schema_path id') = Raise e) ∨
     (∃ schema refs, resolve_schema_references schema refs = Raise e)).
Proof.
  split_and!.
  - intros known rank Hfiles Hresolve id. by apply load_schema_at_acyclic.
  - intros on_cycle Hcycle id. by apply load_schema_at_cycle.
  - intros id e. apply load_schema_at_raises.
Qed.

End schema_facts.

(** ** [load_metadata] *)

Section metadata_facts.
Context `{Platform}.

Lemma metadata_lookup_to_list (mdata : compiled_metadata) bc k :
  metadata_lookup (metadata_to_list mdata) bc k = dict_get bc mdata ≫= dict_get k.
Proof.
  unfold metadata_lookup, metadata_to_list.
  induction mdata as [|[bc' d] mdata IH]; [done|]. simpl.
  destruct (decide (bc' = bc)) as [->|Hne]; simpl; [done|].
  rewrite <-IH.
    by destruct (list_find _ _) as [[]|].
Qed.

Lemma metadata_write_ok (mdata : compiled_metadata) bc k val :
  val ≠ JNull →
  ∃ mdata' d,
    metadata_write mdata bc k val = Ok mdata' ∧
    dict_get bc mdata' = Some d ∧
    dict_get k d = Some val ∧
    (∀ k', k ≠ k' → dict_get k' d = dict_get bc mdata ≫= dict_get k') ∧
    (∀ bc', bc ≠ bc' → dict_get bc' mdata' = dict_get bc' mdata).
Proof.
  intros Hval. unfold metadata_write.
  destruct (dict_get bc mdata) as [d|] eqn:Hbc.
  - exists (dict_set bc (dict_set k val d) mdata), (dict_set k val d).
    split_and!.
    + by destruct val.
    + apply dict_get_set_eq.
    + apply dict_get_set_eq.
    + intros k' Hk. by apply dict_get_set_ne.
    + intros bc' Hbc'. by apply dict_get_set_ne.
  - exists (dict_set bc [(k, val)] mdata), [(k, val)]. split_and!.
    + by destruct val.
    + apply dict_get_set_eq.
    + simpl. by rewrite decide_True.
    + intros k' Hk. simpl. by rewrite decide_False.
    + intros bc' Hbc'. by apply dict_get_set_ne.
Qed.

Lemma write_inclusions_ok stream field_names (mdata : compiled_metadata) :
  ∃ mdata',
    write_inclusions stream field_names mdata = Ok mdata' ∧
    (∀ bc, (∀ f, f ∈ field_names → bc ≠ ["properties"; f]) →
           dict_get bc mdata' = dict_get bc mdata) ∧
    (∀ f, f ∈ field_names →
          dict_get ["properties"; f] mdata' ≫= dict_get "inclusion" =
          Some (inclusion_class stream f)).
Proof.
  revert mdata. induction field_names as [|f0 rest IH]; intros mdata.
  { exists mdata. split_and!; [done..|]. by intros f ?%elem_of_nil. }
  destruct (metadata_write_ok mdata ["properties"; f0] "inclusion"
              (inclusion_class stream f0) ltac:(done))
    as (mdata1 & d & Hw & Hbc & Hk & _ & Hother).
  assert (write_inclusions stream (f0 :: rest) mdata =
          write_inclusions stream rest mdata1) as ->.
  { revert Hw. unfold inclusion_class. simpl.
    by destruct (is_automatic stream f0); intros ->. }
  destruct (IH mdata1) as (mdata' & -> & Hkeep & Hset).
  exists mdata'. split_and!; [done| |].
  - intros bc Hbc'. rewrite Hkeep.
    + apply Hother. apply not_eq_sym, Hbc', list_elem_of_here.
    + intros f Hf. by apply Hbc', list_elem_of_further.
  - intros f Hf. destruct (decide (f ∈ rest)) as [Hin|Hnotin]; [by apply Hset|].
    apply elem_of_cons in Hf as [->|]; [|done].
    rewrite Hkeep, Hbc; [done|]. by intros f Hf [= ->].
Qed.

(** C5.  For a schema with a [properties] object, [load_metadata]
    returns a metadata list in which every field of the schema has the
    inclusion [automatic] when it is in [pk_fields] or is the
    [bookmark_key] and [available] otherwise; the root carries
    [table-key-properties = pk_fields] and
    [forced-replication-method = replication_method]; and the root
    carries [valid-replication-keys], then equal to [[bookmark_key]],
    exactly when [bookmark_key] is set (not [None], not empty). *)
Theorem load_metadata_rules stream kvs props :
  dict_get "properties" kvs = Some (JObj props) →
  ∃ mdata,
    load_metadata stream (JObj kvs) = Ok mdata ∧
    (∀ f, f ∈ props.*1 →
       (metadata_lookup mdata ["properties"; f] "inclusion" =
          Some (JStr "automatic") ↔
        f ∈ pk_fields stream ∨ bookmark_key stream = Some f) ∧
       (metadata_lookup mdata ["properties"; f] "inclusion" =
          Some (JStr "available") ↔
        ¬ (f ∈ pk_fields stream ∨ bookmark_key stream = Some f))) ∧
    metadata_lookup mdata [] "table-key-properties" =
      Some (JArr (JStr <$> pk_fields stream)) ∧
    metadata_lookup mdata [] "forced-replication-method" =
      Some (JStr (replication_method stream)) ∧
    (is_Some (metadata_lookup mdata [] "valid-replication-keys") ↔
     bookmark_key_set stream = true) ∧
    (∀ k, bookmark_key stream = Some k → bookmark_key_set stream = true →
          metadata_lookup mdata [] "valid-replication-keys" =
            Some (JArr [JStr k])).
Proof.
  intros Hprops. unfold load_metadata, properties_keys. rewrite Hprops.
  destruct (metadata_write_ok metadata_new [] "table-key-properties"
              (JArr (JStr <$> pk_fields stream)) ltac:(done))
    as (m1 & d1 & -> & Hd1 & Hk1 & Ho1 & _). cbn [mbind result_bind].
  destruct (metadata_write_ok m1 [] "forced-replication-method"
              (JStr (replication_method stream)) ltac:(done))
    as (m2 & d2 & -> & Hd2 & Hk2 & Ho2 & _). cbn [mbind result_bind].
  assert (dict_get "table-key-properties" d2 =
          Some (JArr (JStr <$> pk_fields stream))) as Hpk.
  { rewrite Ho2 by done. by rewrite Hd1. }
  assert (dict_get "valid-replication-keys" d2 = None) as Hvrk.
  { rewrite Ho2 by done. rewrite Hd1. simpl. by rewrite Ho1. }
  assert (∃ m3 d3,
    match bookmark_key stream with
    | Some k =>
        if bookmark_key_set stream
        then metadata_write m2 [] "valid-replication-keys" (JArr [JStr k])
        else Ok m2
    | None => Ok m2
    end = Ok m3 ∧
    dict_get [] m3 = Some d3 ∧
    dict_get "table-key-properties" d3 =
      Some (JArr (JStr <$> pk_fields stream)) ∧
    dict_get "forced-replication-method" d3 =
      Some (JStr (replication_method stream)) ∧
    dict_get "valid-replication-keys" d3 =
      (if bookmark_key_set stream
       then (λ k, JArr [JStr k]) <$> bookmark_key stream else None))
    as (m3 & d3 & -> & Hd3 & Hpk3 & Hrm3 & Hvrk3).
  { unfold bookmark_key_set.
    destruct (bookmark_key stream) as [k|]; [|by exists m2, d2].
    destruct (negb (String.eqb k EmptyString)); [|by exists m2, d2].
    destruct (metadata_write_ok m2 [] "valid-replication-keys"
                (JArr [JStr k]) ltac:(done))
      as (m3 & d3 & -> & Hd3 & Hk3 & Ho3 & _).
    exists m3, d3. split_and!; [done..| | |done].
    - rewrite Ho3 by done. by rewrite Hd2.
    - rewrite Ho3 by done. by rewrite Hd2. }
  cbn [mbind result_bind].
  destruct (write_inclusions_ok stream (props.*1) m3)
    as (m4 & -> & Hkeep & Hset). cbn [mbind result_bind].
  eexists. split; [done|].
  assert (dict_get [] m4 = Some d3) as Hroot by (by rewrite Hkeep).
  rewrite !metadata_lookup_to_list, Hroot. simpl.
  split_and!; [|done|done| |].
  - intros f Hf. rewrite metadata_lookup_to_list, (Hset f Hf).
    unfold inclusion_class, is_automatic.
    destruct (bool_decide (f ∈ pk_fields stream)) eqn:Hpkf;
      [apply bool_decide_eq_true in Hpkf|apply bool_decide_eq_false in Hpkf];
      simpl.
    { split; split; [by left|done|done|]. intros []. by left. }
    destruct (bool_decide (Some f = bookmark_key stream)) eqn:Hbk;
      [apply bool_decide_eq_true in Hbk|apply bool_decide_eq_false in Hbk].
    { split; split; [by right|done|done|]. intros []. by right. }
    split; split; [done| | |done].
    + intros [?|Heq]; [done|by rewrite Heq in Hbk].
    + intros _ [?|Heq]; [done|by rewrite Heq in Hbk].
  - rewrite Hvrk3. unfold bookmark_key_set.
    destruct (bookmark_key stream) as [k|]; simpl.
    + destruct (negb _); simpl; split; (done || by intros [? ?] || eauto).
    + split; [by intros [? ?]|done].
  - intros k Hk Hset'. by rewrite Hvrk3, Hset', Hk.
Qed.

End metadata_facts.

(** ** The scheduler, unfolded *)

Section tap_facts.
Context `{Platform} `{Process}.

Lemma sync_stream_unfold stream ctx :
  sync_stream stream ctx =
  let ctx1 := checkpoint stream ctx in
  match load_schema (tap_stream_id stream) with
  | Raise e => (Raise e, ctx1, [EWriteState (state ctx1)])
  | Ok schema =>
      let '(r, ctx2, out) := stream_sync stream ctx1 in
      (r, ctx2,
       [EWriteState (state ctx1);
        EWriteSchema (tap_stream_id stream) schema (pk_fields stream);
        ELogInfo ("Syncing stream: " +:+ tap_stream_id stream);
        EStreamSync (tap_stream_id stream) out])
  end.
Proof.
  unfold sync_stream, load_and_write_schema, call_stream_sync, state_set,
    ctx_write_state, checkpoint.
  unfold_M.
  destruct (load_schema (tap_stream_id stream)) as [schema|e]; simpl; [|done].
  by destruct (stream_sync stream _) as [[[[]|e] ctx2] out].
Qed.

Lemma for_each_cons {S A} (x : A) (l : list A) (body : A → M S unit) s :
  for_each (x :: l) body s =
  match body x s with
  | (Ok _, s', t) =>
      let '(r, s'', t') := for_each l body s' in (r, s'', t ++ t')
  | (Raise e, s', t) => (Raise e, s', t)
  end.
Proof. reflexivity. Qed.

Lemma sync_unfold ctx :
  sync ctx =
  match refresh_credentials (config ctx) with
  | Raise e => (Raise e, ctx, [ERefreshCredentials])
  | Ok cfg =>
      let ctx0 := with_config cfg ctx in
      match working_set ctx with
      | Raise e => (Raise e, ctx0, [ERefreshCredentials])
      | Ok streams =>
          match for_each streams sync_stream ctx0 with
          | (Raise e, ctx1, t) => (Raise e, ctx1, ERefreshCredentials :: t)
          | (Ok _, ctx1, t) =>
              let st := <["currently_syncing" := JNull]> (state ctx1) in
              (Ok (), with_state st ctx1,
               ERefreshCredentials :: t ++ [EWriteState st])
          end
      end
  end.
Proof.
  unfold sync, working_set, ctx_refresh_credentials, on_config, state_get,
    state_set, ctx_write_state.
  unfold_M.
  destruct (refresh_credentials (config ctx)) as [cfg|e]; simpl; [|done].
  destruct (start_index _) as [idx|e]; simpl; [|done].
  by destruct (for_each _ _ _) as [[[[]|e] ctx1] t].
Qed.

Lemma rounds_app tail t more :
  rounds tail t → rounds (tail ++ more) (t ++ more).
Proof. induction 1; simpl; by constructor. Qed.

Lemma for_each_sync_stream_rounds streams ctx r ctx' t :
  for_each streams sync_stream ctx = (r, ctx', t) →
  ∃ tail, rounds tail t ∧ short_tail tail ∧ (r = Ok () → tail = []).
Proof.
  revert ctx t. induction streams as [|stream streams IH]; intros ctx t.
  - intros [= <- <- <-]. exists []. repeat split; [constructor|by left].
  - rewrite for_each_cons, sync_stream_unfold. simpl.
    destruct (load_schema _) as [schema|e].
    + destruct (stream_sync stream _) as [[[[]|e] ctx2] out].
      * destruct (for_each streams _ ctx2) as [[r2 ctx3] t2] eqn:Hrest.
        intros [= <- <- <-]. destruct (IH _ _ Hrest) as (tail & Ht & Hs & Hr).
        exists tail. split; [|done]. constructor; [|done].
        apply lookup_insert_eq.
      * intros [= <- <- <-]. exists []. repeat split; [|by left].
        constructor; [apply lookup_insert_eq|constructor].
    + intros [= <- <- <-]. exists [EWriteState (state (checkpoint stream ctx))].
      repeat split; [constructor|right; eauto|done].
Qed.

Lemma rounds_schema_after_checkpoint tail t pre id schema keys post :
  rounds tail t → short_tail tail →
  t = pre ++ EWriteSchema id schema keys :: post →
  ∃ pre' st, pre = pre' ++ [EWriteState st] ∧
             st !! "currently_syncing" = Some (JStr id).
Proof.
  intros Ht Htail. revert pre.
  induction Ht as [|st id' schema' keys' msg out t Hst Ht IH]; intros pre Heq.
  - destruct Htail as [->|[st ->]].
    + by destruct pre.
    + destruct pre as [|? [|]]; simplify_eq/=.
  - destruct pre as [|? [|? [|? [|? pre]]]]; simplify_eq/=.
    + by exists [], st.
    + destruct (IH pre eq_refl) as (pre' & st' & -> & Hst').
      by exists (EWriteState st :: EWriteSchema id' schema' keys' ::
                 ELogInfo msg :: EStreamSync id' out :: pre'), st'.
Qed.

Lemma rounds_extraction_after_schema tail t pre id out post :
  rounds tail t → short_tail tail →
  t = pre ++ EStreamSync id out :: post →
  ∃ pre' st schema keys msg,
    pre = pre' ++ [EWriteState st; EWriteSchema id schema keys; ELogInfo msg] ∧
    st !! "currently_syncing" = Some (JStr id).
Proof.
  intros Ht Htail. revert pre.
  induction Ht as [|st id' schema' keys' msg out' t Hst Ht IH]; intros pre Heq.
  - destruct Htail as [->|[st ->]].
    + by destruct pre.
    + destruct pre as [|? [|]]; simplify_eq/=.
  - destruct pre as [|? [|? [|? [|? pre]]]]; simplify_eq/=.
    + by exists [], st, schema', keys', msg.
    + destruct (IH pre eq_refl) as (pre' & st' & schema & keys & msg' & -> & Hst').
      by exists (EWriteState st :: EWriteSchema id' schema' keys' ::
                 ELogInfo msg :: EStreamSync id' out' :: pre'),
                st', schema, keys, msg'.
Qed.

(** What the loop extracts: the streams it was given, in order, all of
    them unless it raised. *)
Lemma for_each_sync_stream_extracted streams ctx r ctx' t :
  for_each streams sync_stream ctx = (r, ctx', t) →
  extracted t `prefix_of` (tap_stream_id <$> streams) ∧
  (r = Ok () → extracted t = tap_stream_id <$> streams).
Proof.
  revert ctx t. induction streams as [|stream streams IH]; intros ctx t.
  - by intros [= <- <- <-].
  - rewrite for_each_cons, sync_stream_unfold. simpl.
    destruct (load_schema _) as [schema|e].
    + destruct (stream_sync stream _) as [[[[]|e] ctx2] out].
      * destruct (for_each streams _ ctx2) as [[r2 ctx3] t2] eqn:Hrest.
        intros [= <- <- <-]. destruct (IH _ _ Hrest) as [Hp He].
        simpl. split; [by apply prefix_cons|].
        intros Hr. by rewrite He.
      * intros [= <- <- <-]. simpl. split; [|done].
        apply prefix_cons, prefix_nil.
    + intros [= <- <- <-]. simpl. split; [apply prefix_nil|done].
Qed.

Lemma extracted_app t1 t2 : extracted (t1 ++ t2) = extracted t1 ++ extracted t2.
Proof. apply omap_app. Qed.

(** The extractions of a run of [sync] against its working set. *)
Lemma sync_extracted ctx r ctx' t :
  sync ctx = (r, ctx', t) →
  match working_set ctx with
  | Ok streams =>
      extracted t `prefix_of` (tap_stream_id <$> streams) ∧
      (r = Ok () → extracted t = tap_stream_id <$> streams)
  | Raise _ => extracted t = [] ∧ r ≠ Ok ()
  end.
Proof.
  rewrite sync_unfold.
  destruct (refresh_credentials (config ctx)) as [cfg|e]; simpl.
  2:{ intros [= <- <- <-].
      destruct (working_set ctx); (split; [try apply prefix_nil|]; done). }
  destruct (working_set ctx) as [streams|e]; [|by intros [= <- <- <-]].
  destruct (for_each streams sync_stream _) as [[[[]|e] ctx1] t1] eqn:Hloop;
    apply for_each_sync_stream_extracted in Hloop as [Hp He];
    intros [= <- <- <-]; [|done].
  change (extracted (ERefreshCredentials :: ?l)) with (extracted l).
  rewrite extracted_app, app_nil_r. auto.
Qed.

(** ** The resume index *)

Lemma truthy_str K : truthy (JStr K) = true ↔ K ≠ EmptyString.
Proof.
  simpl. rewrite negb_true_iff. split.
  - by intros ?%String.eqb_neq.
  - by intros ?%String.eqb_neq.
Qed.

Lemma str_eq_true v s : str_eq v s = true ↔ v = JStr s.
Proof.
  destruct v; simpl; try (split; [discriminate|congruence]).
  rewrite String.eqb_eq. split; congruence.
Qed.


Lemma start_index_unknown K :
  K ≠ EmptyString → K ∉ all_stream_ids → start_index (JStr K) = Raise ValueError.
Proof.
  intros Hne Hin. unfold start_index, list_index.
  rewrite (proj2 (truthy_str K) Hne).
  destruct (list_find _ _) as [[k s]|] eqn:Hfind; [|done].
  apply list_find_Some in Hfind as (Hk & Hs & _).
  apply str_eq_true in Hs as [= <-].
  by apply list_elem_of_lookup_2 in Hk.
Qed.


(** ** C1 *)

(** C1 (as the code has it).  When [currently_syncing] holds a
    non-empty id that is not in the declared order, [sync] raises before
    anything but the refresh of the credentials has happened: no state
    is written, no schema emitted, no extraction invoked, and the state
    is unchanged.  When the refresh went well the exception is the
    [ValueError] of [list.index]; the module has no
    [InvalidResumeStateError]. *)
Theorem sync_unknown_marker_raises_first ctx K :
  state ctx !! "currently_syncing" = Some (JStr K) →
  K ≠ EmptyString →
  K ∉ all_stream_ids →
  ∃ e ctx',
    sync ctx = (Raise e, ctx', [ERefreshCredentials]) ∧
    state ctx' = state ctx ∧
    (∀ cfg, refresh_credentials (config ctx) = Ok cfg → e = ValueError).
Proof.
  intros Hst Hne Hin. rewrite sync_unfold. unfold working_set.
  rewrite Hst. simpl. rewrite (start_index_unknown K Hne Hin). simpl.
  destruct (refresh_credentials (config ctx)) as [cfg|e]; simpl.
  - exists ValueError, (with_config cfg ctx). by split_and!.
  - exists e, ctx. by split_and!.
Qed.

(** ** C2 *)


(** ** C6 *)


(** ** C7 *)


(** ** C8 *)

(** C8.  In the trace of a run of [sync], the schema of a stream comes
    right after a write of the state in which [currently_syncing] is
    that stream, and the extraction of a stream comes right after that
    write, the schema and the log line, in this order.  When [sync]
    returns, every stream of the working set has these steps. *)
Theorem sync_steps_in_order ctx r ctx' t :
  sync ctx = (r, ctx', t) →
  (∀ pre id schema keys post,
     t = pre ++ EWriteSchema id schema keys :: post →
     ∃ pre' st, pre = pre' ++ [EWriteState st] ∧
                st !! "currently_syncing" = Some (JStr id)) ∧
  (∀ pre id out post,
     t = pre ++ EStreamSync id out :: post →
     ∃ pre' st schema keys msg,
       pre = pre' ++ [EWriteState st; EWriteSchema id schema keys;
                      ELogInfo msg] ∧
       st !! "currently_syncing" = Some (JStr id)) ∧
  (r = Ok () → ∀ streams stream,
     working_set ctx = Ok streams → stream ∈ streams →
     ∃ pre st schema keys msg out post,
       t = pre ++ [EWriteState st;
                   EWriteSchema (tap_stream_id stream) schema keys;
                   ELogInfo msg;
                   EStreamSync (tap_stream_id stream) out] ++ post ∧
       st !! "currently_syncing" = Some (JStr (tap_stream_id stream))).
Proof.
  intros Hrun.
  assert (∃ tail t0, t = ERefreshCredentials :: t0 ∧ rounds tail t0 ∧
                     short_tail tail) as (tail & t0 & -> & Hrounds & Htail).
  { revert Hrun. rewrite sync_unfold.
    destruct (refresh_credentials (config ctx)) as [cfg|e]; simpl.
    2:{ intros [= <- <- <-]. exists [], []. split_and!; [done|constructor|by left]. }
    destruct (working_set ctx) as [streams|e].
    2:{ intros [= <- <- <-]. exists [], []. split_and!; [done|constructor|by left]. }
    destruct (for_each streams sync_stream _) as [[r1 ctx1] t1] eqn:Hloop.
    apply for_each_sync_stream_rounds in Hloop as (tail & Hr & Hs & Hok).
    destruct r1 as [[]|e]; intros [= <- <- <-].
    - rewrite (Hok eq_refl) in Hr. eexists _, _. split; [done|]. split.
      + apply (rounds_app [] _ [_] Hr).
      + right. eauto.
    - by exists tail, t1. }
  assert (∀ pre id out post,
     ERefreshCredentials :: t0 = pre ++ EStreamSync id out :: post →
     ∃ pre' st schema keys msg,
       pre = pre' ++ [EWriteState st; EWriteSchema id schema keys;
                      ELogInfo msg] ∧
       st !! "currently_syncing" = Some (JStr id)) as Hextract.
  { intros [|ev pre] id out post Heq; simplify_eq/=.
    destruct (rounds_extraction_after_schema _ _ _ _ _ _ Hrounds Htail eq_refl)
      as (pre' & st & schema & keys & msg & -> & Hst).
    by exists (ERefreshCredentials :: pre'), st, schema, keys, msg. }
  split_and!; [|done|].
  - intros [|ev pre] id schema keys post Heq; simplify_eq/=.
    destruct (rounds_schema_after_checkpoint _ _ _ _ _ _ _ Hrounds Htail eq_refl)
      as (pre' & st & -> & Hst).
    by exists (ERefreshCredentials :: pre'), st.
  - intros -> streams stream Hws Hin.
    apply sync_extracted in Hrun. rewrite Hws in Hrun.
    destruct Hrun as [_ Hex]. specialize (Hex eq_refl).
    assert (tap_stream_id stream ∈ extracted (ERefreshCredentials :: t0))
      as Hid by (rewrite Hex; by apply list_elem_of_fmap_2).
    apply list_elem_of_omap in Hid as (ev & Hev & Hsome).
    destruct ev; simplify_eq/=.
    apply list_elem_of_split in Hev as (pre & post & Heq).
    destruct (Hextract _ _ _ _ Heq) as (pre' & st & schema & keys & msg & -> & Hst).
    exists pre', st, schema, keys, msg, out, post. split; [|done].
    rewrite Heq. by rewrite <-app_assoc.
Qed.

(** ** C10 *)


(** ** Traces of the parts of [main_impl] *)

Lemma trace_all_ret {S A} P (a : A) : trace_all (S:=S) P (mret a).
Proof. intros s. constructor. Qed.

Lemma trace_all_bind {S A B} P (m : M S A) (f : A → M S B) :
  trace_all P m → (∀ a, trace_all P (f a)) → trace_all P (m ≫= f).
Proof.
  intros Hm Hf s. unfold mbind, M_bind. specialize (Hm s).
  destruct (m s) as [[[a|e] s'] t]; simpl in *; [|done].
  specialize (Hf a s'). destruct (f a s') as [[r s''] t']. simpl in *.
  by apply Forall_app.
Qed.

Lemma trace_all_emit {S} (P : Event → Prop) e : P e → trace_all (S:=S) P (emit e).
Proof. intros He s. by repeat constructor. Qed.

Lemma trace_all_silent {S A} P (m : M S A) :
  (∀ s, (m s).2 = []) → trace_all P m.
Proof. intros Hm s. rewrite Hm. constructor. Qed.

Lemma trace_all_for_each {S A} P (l : list A) (body : A → M S unit) :
  (∀ x, trace_all P (body x)) → trace_all P (for_each l body).
Proof.
  intros Hbody. induction l as [|x l IH]; simpl.
  - apply trace_all_ret.
  - by apply trace_all_bind.
Qed.

Lemma trace_all_with_context {A} P st cat path (body : M Ctx A) :
  trace_all P body → trace_all P (with_context st cat path body).
Proof.
  intros Hbody cfg. unfold with_context.
  specialize (Hbody {| config := cfg; state := st; catalog := cat;
                       config_path := path |}).
  by destruct (body _) as [[r ctx] t].
Qed.

Ltac trace_all_step :=
  lazymatch goal with
  | |- trace_all _ (mbind _ _) => apply trace_all_bind; [|intros ?]
  | |- trace_all _ (mret _) => apply trace_all_ret
  | |- trace_all _ (emit _) => by apply trace_all_emit
  | |- trace_all _ (for_each _ _) => apply trace_all_for_each; intros ?
  | |- trace_all _ (with_context _ _ _ _) => apply trace_all_with_context
  | |- trace_all _ (if ?b then _ else _) => destruct b
  | |- trace_all _ (match ?x with _ => _ end) => destruct x
  | |- trace_all _ (lift _) => by apply trace_all_silent
  | |- trace_all _ (gets _) => by apply trace_all_silent
  | |- trace_all _ (modify _) => by apply trace_all_silent
  end.

Lemma sync_quiet : trace_all quiet sync.
Proof.
  unfold sync, sync_stream, state_set, state_get, load_and_write_schema.
  repeat trace_all_step;
    try (intros ctx; unfold ctx_refresh_credentials, on_config,
           ctx_write_state, call_stream_sync; simpl;
         repeat case_match; simplify_eq/=; by repeat constructor).
Qed.

Lemma discover_quiet : trace_all quiet discover.
Proof.
  unfold discover. repeat trace_all_step.
  intros ctx. unfold ctx_check_platform_access, on_config.
  case_match; by repeat constructor.
Qed.

Lemma run_mode_quiet args : trace_all quiet (run_mode args).
Proof.
  unfold run_mode.
  repeat (trace_all_step || apply discover_quiet || apply sync_quiet).
Qed.

Lemma read_secrets_quiet : trace_all quiet read_secrets.
Proof.
  unfold read_secrets, environ_get, client_access_secret_version, config_set.
  repeat trace_all_step.
Qed.

(** [write_back_secret], case by case. *)
Lemma write_back_secret_unfold cfg :
  write_back_secret cfg =
  let log := ELogInfo
    "Writing back TAP_XERO_REFRESH_TOKEN to Google Secret Manager" in
  match environ !! "SECRET_XERO_REFRESH_TOKEN" with
  | None => (Raise KeyError, cfg, [log])
  | Some secret =>
      match cfg !! "refresh_token" with
      | None => (Raise KeyError, cfg, [log])
      | Some refresh_token =>
          match encode refresh_token with
          | Raise e => (Raise e, cfg, [log])
          | Ok payload =>
              let add := EAddSecretVersion secret payload in
              match add_secret_version secret payload with
              | Raise e => (Raise e, cfg, [log; add])
              | Ok version_name =>
                  match py_int (pop_last (split "/" version_name)) with
                  | Raise e => (Raise e, cfg, [log; add])
                  | Ok newVersionNumber =>
                      let old := py_str_of_int (newVersionNumber - 1) in
                      let destroy :=
                        EDestroySecretVersion (secret +:+ "/versions/" +:+ old) in
                      match destroy_secret_version
                              (secret +:+ "/versions/" +:+ old) with
                      | Raise e => (Raise e, cfg, [log; add; destroy])
                      | Ok _ =>
                          (Ok (), cfg,
                           [log; add; destroy;
                            ELogInfo ("Destroyed version " +:+ old +:+
                              " TAP_XERO_REFRESH_TOKEN from Google Secret Manager")])
                      end
                  end
              end
          end
      end
  end.
Proof.
  unfold write_back_secret, environ_get, config_get,
    client_add_secret_version, client_destroy_secret_version.
  unfold_M.
  repeat (case_match; simplify_eq/=; try done).
Qed.

(** A run of [main_impl] is a part without requests that change the
    secret store, followed, when that part went well and the secret
    manager is enabled, by [write_back_secret]. *)
Lemma main_impl_parts cfg0 r cfg t :
  main_impl cfg0 = (r, cfg, t) →
  ∃ t0, Forall quiet t0 ∧
    (t = t0 ∨
     ∃ cfg1 t1, write_back_secret cfg1 = (r, cfg, t1) ∧ t = t0 ++ t1).
Proof.
  unfold main_impl.
  set (before := (args ← lift (parse_args REQUIRED_CONFIG_KEYS);
                  modify (λ _, args_config args);;
                  (if secret_manager_enabled then read_secrets else mret ());;
                  mret args) : M (gmap string json) Args).
  assert (trace_all quiet before) as Hbefore.
  { unfold before. repeat (trace_all_step || apply read_secrets_quiet). }
  intros Hrun.
  assert (main_impl cfg0 =
    (args ← before; run_mode args;;
     (if secret_manager_enabled then write_back_secret else mret ())) cfg0)
    as Hsplit.
  { unfold main_impl, before. unfold_M.
    destruct (parse_args _) as [args|e]; [|done]. simpl.
    destruct secret_manager_enabled; simpl.
    - destruct (read_secrets _) as [[[[]|e] cfg1] t1]; [|done]. simpl.
      destruct (run_mode args cfg1) as [[[[]|e] cfg2] t2]; simpl;
        rewrite ?app_nil_r; [|done].
      destruct (write_back_secret cfg2) as [[r3 cfg3] t3].
      by rewrite app_assoc.
    - by destruct (run_mode args _) as [[[[]|e] cfg2] t2]. }
  unfold main_impl in Hsplit. rewrite Hsplit in Hrun. clear Hsplit.
  revert Hrun. unfold mbind at 1, M_bind at 1.
  specialize (Hbefore cfg0).
  destruct (before cfg0) as [[[args|e] cfg1] t1]; simpl in Hbefore.
  2:{ intros [= <- <- <-]. exists t1. by split; [|left]. }
  unfold mbind at 1, M_bind at 1.
  pose proof (run_mode_quiet args cfg1) as Hmode.
  destruct (run_mode args cfg1) as [[[[]|e] cfg2] t2]; simpl in Hmode.
  2:{ intros [= <- <- <-]. exists (t1 ++ t2).
      split; [by apply Forall_app|by left]. }
  destruct secret_manager_enabled.
  - destruct (write_back_secret cfg2) as [[r3 cfg3] t3] eqn:Hwb.
    intros [= <- <- <-]. exists (t1 ++ t2).
    split; [by apply Forall_app|]. right. exists cfg2, t3.
    by rewrite app_assoc.
  - intros [= <- <- <-]. exists (t1 ++ t2).
    split; [by apply Forall_app|]. left. by rewrite app_nil_r.
Qed.

Lemma secret_writes_quiet t : Forall quiet t → secret_writes t = [].
Proof.
  unfold secret_writes. induction 1 as [|e t He Ht IH]; [done|].
  rewrite filter_cons, IH. unfold quiet in He. by rewrite decide_False by congruence.
Qed.

Lemma secret_writes_app t1 t2 :
  secret_writes (t1 ++ t2) = secret_writes t1 ++ secret_writes t2.
Proof. apply filter_app. Qed.

Local Ltac absent :=
  let Hin := fresh "Hin" in
  intros Hin;
  repeat (apply elem_of_cons in Hin as [?|Hin]; [done|]);
  by apply elem_of_nil in Hin.

(** After the request that adds a version: the run ends in
    [write_back_secret], which goes on to the request that destroys the
    version before the new one. *)
Lemma main_impl_after_add cfg0 r cfg t parent payload name N :
  main_impl cfg0 = (r, cfg, t) →
  EAddSecretVersion parent payload ∈ t →
  add_secret_version parent payload = Ok name →
  py_int (pop_last (split "/" name)) = Ok N →
  ∃ t0 log,
    Forall quiet t0 ∧
    let old := parent +:+ "/versions/" +:+ py_str_of_int (N - 1) in
    match destroy_secret_version old with
    | Raise e =>
        r = Raise e ∧
        t = t0 ++ [ELogInfo log; EAddSecretVersion parent payload;
                   EDestroySecretVersion old]
    | Ok _ =>
        r = Ok () ∧
        ∃ log', t = t0 ++ [ELogInfo log; EAddSecretVersion parent payload;
                           EDestroySecretVersion old; ELogInfo log']
    end.
Proof.
  intros Hrun Hadd Hname HN.
  destruct (main_impl_parts _ _ _ _ Hrun) as (t0 & Hquiet & Hparts).
  assert (EAddSecretVersion parent payload ∉ t0) as Hnot.
  { intros Hin. by apply (proj1 (Forall_forall _ _) Hquiet) in Hin. }
  destruct Hparts as [->|(cfg1 & t1 & Hwb & ->)]; [done|].
  apply elem_of_app in Hadd as [?|Hadd]; [done|].
  exists t0. revert Hwb Hadd. rewrite write_back_secret_unfold. simpl.
  destruct (environ !! "SECRET_XERO_REFRESH_TOKEN") as [secret|];
    [|intros [= <- <- <-]; absent].
  destruct (cfg1 !! "refresh_token") as [refresh_token|];
    [|intros [= <- <- <-]; absent].
  destruct (encode refresh_token) as [payload'|e];
    [|intros [= <- <- <-]; absent].
  assert (∀ l : list Event,
    EAddSecretVersion parent payload ∈
      ELogInfo "Writing back TAP_XERO_REFRESH_TOKEN to Google Secret Manager"
      :: EAddSecretVersion secret payload' :: l →
    EAddSecretVersion parent payload ∉ l →
    secret = parent ∧ payload' = payload) as Hsame.
  { intros l Hin Hl. apply elem_of_cons in Hin as [?|Hin]; [done|].
    apply elem_of_cons in Hin as [[= -> ->]|Hin]; done. }
  destruct (add_secret_version secret payload') as [name'|e] eqn:Hadd'.
  2:{ intros [= <- <- <-] Hin. apply Hsame in Hin as [-> ->]; [|absent].
      congruence. }
  destruct (py_int (pop_last (split "/" name'))) as [N'|e] eqn:HN'.
  2:{ intros [= <- <- <-] Hin. apply Hsame in Hin as [-> ->]; [|absent].
      congruence. }
  destruct (destroy_secret_version
              (secret +:+ "/versions/" +:+ py_str_of_int (N' - 1)))
    as [[]|e] eqn:Hdestroy;
    intros [= <- <- <-] Hin; apply Hsame in Hin as [-> ->]; try absent;
    rewrite Hname in Hadd'; injection Hadd' as <-;
    rewrite HN in HN'; injection HN' as <-;
    rewrite Hdestroy; eauto.
Qed.

(** ** C9 *)

(** C9.  In a run of [main_impl] that adds a secret version and is
    answered with the name of version [N], the requests that change the
    secret store are that addition and one request to destroy version
    [N - 1] of the same secret, in this order, and no other. *)
Theorem rotation_destroys_previous_version
    cfg0 r cfg t parent payload name N :
  main_impl cfg0 = (r, cfg, t) →
  EAddSecretVersion parent payload ∈ t →
  add_secret_version parent payload = Ok name →
  py_int (pop_last (split "/" name)) = Ok N →
  secret_writes t =
    [EAddSecretVersion parent payload;
     EDestroySecretVersion
       (parent +:+ "/versions/" +:+ py_str_of_int (N - 1))].
Proof.
  intros Hrun Hadd Hname HN.
  destruct (main_impl_after_add _ _ _ _ _ _ _ _ Hrun Hadd Hname HN)
    as (t0 & log & Hquiet & Hdestroy). simpl in Hdestroy.
  destruct (destroy_secret_version _) as [[]|e].
  - destruct Hdestroy as (_ & log' & ->).
    by rewrite secret_writes_app, (secret_writes_quiet t0).
  - destruct Hdestroy as (_ & ->).
    by rewrite secret_writes_app, (secret_writes_quiet t0).
Qed.

(** ** C4 *)

(** C4 (as the code has it).  When the new secret version has been
    written and the request to destroy the previous version fails, the
    exception leaves [main_impl]: the request is the last thing the run
    did, and [main] logs the exception at critical level and raises it
    again.  Nothing catches it. *)
Theorem destroy_failure_is_fatal
    cfg0 r cfg t parent payload name N e :
  main_impl cfg0 = (r, cfg, t) →
  EAddSecretVersion parent payload ∈ t →
  add_secret_version parent payload = Ok name →
  py_int (pop_last (split "/" name)) = Ok N →
  destroy_secret_version
    (parent +:+ "/versions/" +:+ py_str_of_int (N - 1)) = Raise e →
  r = Raise e ∧
  last t = Some (EDestroySecretVersion
                   (parent +:+ "/versions/" +:+ py_str_of_int (N - 1))) ∧
  main cfg0 = (Raise e, cfg, t ++ [ELogCritical e]).
Proof.
  intros Hrun Hadd Hname HN Hfail.
  destruct (main_impl_after_add _ _ _ _ _ _ _ _ Hrun Hadd Hname HN)
    as (t0 & log & Hquiet & Hdestroy). simpl in Hdestroy.
  rewrite Hfail in Hdestroy. destruct Hdestroy as [-> ->].
  split_and!; [done| |].
  - by rewrite last_app.
  - unfold main. by rewrite Hrun.
Qed.

End tap_facts.

(** * Further properties *)

(** ** [discover] *)

Section discover_facts.
Context `{Platform}.

Lemma discover_streams_outcome streams entries :
  match discover_streams streams entries with
  | Ok cat => ∃ new, cat = entries ++ new ∧ Forall2 discovered streams new
  | Raise e =>
      ∃ done stream rest,
        streams = done ++ stream :: rest ∧
        Forall (λ s, ∃ entry, discovered s entry) done ∧
        discovery_fails stream e
  end.
Proof.
  revert entries. induction streams as [|stream streams IH]; intros entries.
  { simpl. exists []. by rewrite app_nil_r. }
  simpl.
  destruct (load_schema (tap_stream_id stream)) as [schema|e] eqn:Hschema;
    cbn [mbind result_bind].
  2:{ exists [], stream, streams. split_and!; [done|constructor|by left]. }
  destruct (load_metadata stream schema) as [mdata|e] eqn:Hmdata;
    cbn [mbind result_bind].
  2:{ exists [], stream, streams. split_and!; [done|constructor|].
      right. left. eauto. }
  destruct (schema_from_dict schema) as [object|e] eqn:Hobject;
    cbn [mbind result_bind].
  2:{ exists [], stream, streams. split_and!; [done|constructor|].
      right. right. eauto. }
  assert (discovered stream (discovered_entry stream object mdata)) as Hfound
    by (by exists schema, mdata, object).
  specialize (IH (entries ++ [discovered_entry stream object mdata])).
  change ({| entry_stream := _; entry_tap_stream_id := _; key_properties := _;
             entry_schema := _; entry_metadata := _ |})
    with (discovered_entry stream object mdata).
  destruct (discover_streams streams _) as [cat|e].
  - destruct IH as (new & -> & Hnew).
    exists (discovered_entry stream object mdata :: new).
    split; [by rewrite <-app_assoc|by constructor].
  - destruct IH as (done & failed & rest & -> & Hdone & Hfails).
    exists (stream :: done), failed, rest.
    split_and!; [done| |done]. constructor; [eauto|done].
Qed.

Lemma discover_unfold ctx :
  discover ctx =
  match check_platform_access (config ctx) with
  | Raise e => (Raise e, ctx, [ECheckPlatformAccess])
  | Ok cfg =>
      (discover_streams all_streams [], with_config cfg ctx,
       [ECheckPlatformAccess])
  end.
Proof.
  unfold discover, ctx_check_platform_access, on_config. unfold_M.
  destruct (check_platform_access (config ctx)) as [cfg|e]; [|done].
  by destruct (discover_streams all_streams []).
Qed.

(** X1.  When [discover] returns, the catalog has one entry for each
    declared stream, in declared order: its two names are the stream
    id, its key properties the primary keys, its metadata what
    [load_metadata] returns for the document [load_schema] returns for
    the id, and its schema what [Schema.from_dict] makes of that
    document.  The platform access check is the only thing the run did
    to the outside, and state and catalog of the context are as
    before. *)
Theorem discover_catalog ctx cat ctx' t :
  discover ctx = (Ok cat, ctx', t) →
  Forall2 discovered all_streams cat ∧
  t = [ECheckPlatformAccess] ∧
  state ctx' = state ctx ∧ catalog ctx' = catalog ctx.
Proof.
  rewrite discover_unfold.
  destruct (check_platform_access (config ctx)) as [cfg|e]; [|done].
  pose proof (discover_streams_outcome all_streams []) as Hout.
  intros [= Hcat <- <-]. rewrite Hcat in Hout.
  by destruct Hout as (new & -> & Hnew).
Qed.

(** X2.  When [discover] raises, either the platform access check
    raised that exception, or the check went well and the exception
    comes from the first declared stream that fails, every stream
    before it having been discovered: [load_schema] raised it, or
    [load_metadata] on the document loaded, or [Schema.from_dict] on
    that document after the metadata was built.  The check is again the
    only thing done to the outside. *)
Theorem discover_raises ctx e ctx' t :
  discover ctx = (Raise e, ctx', t) →
  t = [ECheckPlatformAccess] ∧
  (check_platform_access (config ctx) = Raise e ∨
   ∃ cfg done stream rest,
     check_platform_access (config ctx) = Ok cfg ∧
     all_streams = done ++ stream :: rest ∧
     Forall (λ s, ∃ entry, discovered s entry) done ∧
     discovery_fails stream e).
Proof.
  rewrite discover_unfold.
  destruct (check_platform_access (config ctx)) as [cfg|e'].
  - pose proof (discover_streams_outcome all_streams []) as Hout.
    intros [= Hcat <- <-]. rewrite Hcat in Hout.
    destruct Hout as (done & stream & rest & Hall & Hdone & Hfails).
    split; [done|]. right. by exists cfg, done, stream, rest.
  - intros [= <- <- <-]. split; [done|by left].
Qed.

End discover_facts.

(** ** [sync] beyond its working set *)

Section sync_facts.
Context `{Platform}.

Lemma written_app t1 t2 : written (t1 ++ t2) = written t1 ++ written t2.
Proof. apply omap_app. Qed.

Lemma persisted_app t1 t2 st :
  persisted t2 = Some st → persisted (t1 ++ t2) = Some st.
Proof.
  unfold persisted. rewrite written_app. intros Hlast.
  rewrite last_app. by rewrite Hlast.
Qed.

(** Where the loop of [sync] stops when it raises. *)
Lemma for_each_sync_stream_raises streams ctx e ctx' t :
  for_each streams sync_stream ctx = (Raise e, ctx', t) →
  ∃ done failed rest st,
    streams = done ++ failed :: rest ∧
    persisted t = Some st ∧
    st !! "currently_syncing" = Some (JStr (tap_stream_id failed)) ∧
    ((load_schema (tap_stream_id failed) = Raise e ∧
      extracted t = tap_stream_id <$> done) ∨
     ((∃ schema, load_schema (tap_stream_id failed) = Ok schema) ∧
      extracted t = tap_stream_id <$> (done ++ [failed]))).
Proof.
  revert ctx t. induction streams as [|stream streams IH]; intros ctx t; [done|].
  rewrite for_each_cons, sync_stream_unfold. simpl.
  destruct (load_schema (tap_stream_id stream)) as [schema|e'] eqn:Hschema.
  - destruct (stream_sync stream _) as [[[[]|e'] ctx2] out].
    + destruct (for_each streams _ ctx2) as [[r2 ctx3] t2] eqn:Hrest.
      intros [= -> <- <-].
      destruct (IH _ _ Hrest) as (done & failed & rest & st & -> & Hst & Hm & Hex).
      exists (stream :: done), failed, rest, st. split_and!; [done| |done|].
      * by apply (persisted_app [_; _; _; _]).
      * simpl. destruct Hex as [[? ->]|[? ->]]; [by left|by right].
    + intros [= -> <- <-]. eexists [], stream, streams, _.
      split_and!; [done|done|apply lookup_insert_eq|]. right. eauto.
  - intros [= -> <- <-]. eexists [], stream, streams, _.
    split_and!; [done|done|apply lookup_insert_eq|]. by left.
Qed.

(** X3.  When [sync] raises after the credentials were refreshed and
    the working set was computed, it stopped at one stream of the
    working set: the state written last has [currently_syncing] set to
    that stream, every stream before it was extracted and none after
    it.  The exception is the one of [load_schema] for that stream,
    which then was not extracted, or the one of its extraction. *)
Theorem sync_failure_keeps_checkpoint ctx cfg streams e ctx' t :
  refresh_credentials (config ctx) = Ok cfg →
  working_set ctx = Ok streams →
  sync ctx = (Raise e, ctx', t) →
  ∃ done failed rest st,
    streams = done ++ failed :: rest ∧
    persisted t = Some st ∧
    st !! "currently_syncing" = Some (JStr (tap_stream_id failed)) ∧
    ((load_schema (tap_stream_id failed) = Raise e ∧
      extracted t = tap_stream_id <$> done) ∨
     ((∃ schema, load_schema (tap_stream_id failed) = Ok schema) ∧
      extracted t = tap_stream_id <$> (done ++ [failed]))).
Proof.
  intros Hrefresh Hws. rewrite sync_unfold, Hrefresh, Hws. simpl.
  destruct (for_each streams sync_stream _) as [[[[]|e'] ctx1] t1] eqn:Hloop;
    intros [= -> <- <-].
  destruct (for_each_sync_stream_raises _ _ _ _ _ Hloop)
    as (done & failed & rest & st & -> & Hst & Hm & Hex).
  exists done, failed, rest, st. split_and!; [done| |done|done].
  by apply (persisted_app [_]).
Qed.

Lemma for_each_sync_stream_keeps k streams ctx r ctx' t :
  k ≠ "currently_syncing" →
  (∀ s c, s ∈ streams → state (stream_sync s c).1.2 !! k = state c !! k) →
  for_each streams sync_stream ctx = (r, ctx', t) →
  state ctx' !! k = state ctx !! k.
Proof.
  intros Hk. revert ctx t.
  induction streams as [|stream streams IH]; intros ctx t Hkeep.
  { by intros [= <- <- <-]. }
  assert (state (checkpoint stream ctx) !! k = state ctx !! k) as Hcheck.
  { simpl. by rewrite lookup_insert_ne. }
  rewrite for_each_cons, sync_stream_unfold. simpl.
  destruct (load_schema (tap_stream_id stream)) as [schema|e].
  - pose proof (Hkeep stream (checkpoint stream ctx) ltac:(left)) as Hs.
    destruct (stream_sync stream _) as [[[[]|e] ctx2] out]; simpl in Hs.
    + destruct (for_each streams _ ctx2) as [[r2 ctx3] t2] eqn:Hrest.
      intros [= <- <- <-]. rewrite (IH _ _ (λ s c Hin, Hkeep s c
        (list_elem_of_further _ _ _ Hin)) Hrest). by rewrite Hs.
    + intros [= <- <- <-]. by rewrite Hs.
  - by intros [= <- <- <-].
Qed.

Lemma streams_from_declared k cat s : s ∈ streams_from k cat → s ∈ all_streams.
Proof.
  intros [_ Hs]%list_elem_of_filter.
  apply list_elem_of_lookup in Hs as [i Hi]. rewrite lookup_drop in Hi.
  by eapply list_elem_of_lookup_2.
Qed.

(** X4.  Of the state, [sync] itself changes only [currently_syncing]:
    a key the extraction procedures of the declared streams leave as it
    is has after the run, however it ends, the value it had before. *)
Theorem sync_keeps_other_keys k ctx r ctx' t :
  k ≠ "currently_syncing" →
  (∀ s c, s ∈ all_streams → state (stream_sync s c).1.2 !! k = state c !! k) →
  sync ctx = (r, ctx', t) →
  state ctx' !! k = state ctx !! k.
Proof.
  intros Hk Hkeep. rewrite sync_unfold.
  destruct (refresh_credentials (config ctx)) as [cfg|e]; simpl;
    [|by intros [= <- <- <-]].
  unfold working_set.
  destruct (start_index _) as [idx|e]; simpl; [|by intros [= <- <- <-]].
  destruct (for_each _ sync_stream _) as [[r1 ctx1] t1] eqn:Hloop.
  apply (for_each_sync_stream_keeps k) in Hloop; [|done|].
  2:{ intros s c Hs. apply Hkeep. by eapply streams_from_declared. }
  simpl in Hloop.
  destruct r1 as [[]|e]; intros [= <- <- <-]; simpl; [|done].
  by rewrite lookup_insert_ne.
Qed.

(** The schemas and extractions of the loop belong to its streams. *)
Lemma for_each_sync_stream_events streams ctx r ctx' t :
  for_each streams sync_stream ctx = (r, ctx', t) →
  (∀ id schema keys, EWriteSchema id schema keys ∈ t →
     ∃ stream, stream ∈ streams ∧ tap_stream_id stream = id ∧
               keys = pk_fields stream ∧ load_schema id = Ok schema) ∧
  (∀ id out, EStreamSync id out ∈ t →
     ∃ stream, stream ∈ streams ∧ tap_stream_id stream = id).
Proof.
  revert ctx t. induction streams as [|stream streams IH]; intros ctx t.
  { intros [= <- <- <-]. split; intros ??; [intros ? Hin|intros Hin];
      by apply elem_of_nil in Hin. }
  rewrite for_each_cons, sync_stream_unfold. simpl.
  destruct (load_schema (tap_stream_id stream)) as [schema|e] eqn:Hschema.
  - destruct (stream_sync stream _) as [[[[]|e] ctx2] out].
    + destruct (for_each streams _ ctx2) as [[r2 ctx3] t2] eqn:Hrest.
      intros [= <- <- <-]. destruct (IH _ _ Hrest) as [IHs IHx]. split.
      * intros id schema' keys Hin.
        repeat (apply elem_of_cons in Hin as [Heq|Hin]; [simplify_eq|]).
        -- exists stream. split_and!; [left|done..].
        -- destruct (IHs _ _ _ Hin) as (s & Hs & ?). exists s.
           split; [by right|done].
      * intros id out' Hin.
        repeat (apply elem_of_cons in Hin as [Heq|Hin]; [simplify_eq|]).
        -- exists stream. split; [left|done].
        -- destruct (IHx _ _ Hin) as (s & Hs & ?). exists s.
           split; [by right|done].
    + intros [= <- <- <-]. split.
      * intros id schema' keys Hin.
        repeat (apply elem_of_cons in Hin as [Heq|Hin]; [simplify_eq|]);
          [|by apply elem_of_nil in Hin].
        exists stream. split_and!; [left|done..].
      * intros id out' Hin.
        repeat (apply elem_of_cons in Hin as [Heq|Hin]; [simplify_eq|]);
          [|by apply elem_of_nil in Hin].
        exists stream. split; [left|done].
  - intros [= <- <- <-]. split; intros ??;
      [intros ? Hin|intros Hin];
      (apply elem_of_cons in Hin as [?|Hin]; [done|by apply elem_of_nil in Hin]).
Qed.

(** X5.  Whatever schema [sync] emits is the schema [load_schema]
    returns for a declared stream that is selected, with the primary
    keys of that stream; whatever it extracts is a declared stream that
    is selected. *)
Theorem sync_emits_only_selected ctx r ctx' t :
  sync ctx = (r, ctx', t) →
  (∀ id schema keys, EWriteSchema id schema keys ∈ t →
     ∃ stream, stream ∈ all_streams ∧ tap_stream_id stream = id ∧
               keys = pk_fields stream ∧ load_schema id = Ok schema ∧
               id ∈ stream_ids_to_sync (catalog ctx)) ∧
  (∀ id out, EStreamSync id out ∈ t →
     id ∈ all_stream_ids ∧ id ∈ stream_ids_to_sync (catalog ctx)).
Proof.
  rewrite sync_unfold.
  assert ((∀ id schema keys, EWriteSchema id schema keys ∉ [ERefreshCredentials]) ∧
    (∀ id out, EStreamSync id out ∉ [ERefreshCredentials])) as [Hns Hnx].
  { split; intros; intros Hin;
      (apply elem_of_cons in Hin as [?|Hin]; [done|by apply elem_of_nil in Hin]). }
  destruct (refresh_credentials (config ctx)) as [cfg|e]; simpl.
  2:{ intros [= <- <- <-]. split; intros; [by destruct (Hns id schema keys)|
        by destruct (Hnx id out)]. }
  unfold working_set.
  destruct (start_index _) as [idx|e]; simpl.
  2:{ intros [= <- <- <-]. split; intros; [by destruct (Hns id schema keys)|
        by destruct (Hnx id out)]. }
  destruct (for_each _ sync_stream _) as [[r1 ctx1] t1] eqn:Hloop.
  apply for_each_sync_stream_events in Hloop as [Hs Hx].
  assert (∀ stream, stream ∈ streams_from idx (catalog ctx) →
            stream ∈ all_streams ∧
            tap_stream_id stream ∈ stream_ids_to_sync (catalog ctx)) as Hsel.
  { intros stream Hin. split; [by eapply streams_from_declared|].
    by apply list_elem_of_filter in Hin as [? _]. }
  assert (∀ ev, ev ∈ match r1 with
                     | Ok _ => ERefreshCredentials :: t1 ++
                         [EWriteState (<["currently_syncing":=JNull]> (state ctx1))]
                     | Raise _ => ERefreshCredentials :: t1
                     end →
                ev ∈ t1 ∨
                (∀ id schema keys, ev ≠ EWriteSchema id schema keys) ∧
                (∀ id out, ev ≠ EStreamSync id out)) as Hin1.
  { intros ev Hev. destruct r1.
    - apply elem_of_cons in Hev as [->|Hev]; [by right|].
      apply elem_of_app in Hev as [?|Hev]; [by left|].
      apply list_elem_of_singleton in Hev as ->. by right.
    - apply elem_of_cons in Hev as [->|Hev]; [by right|by left]. }
  intros Hrun.
  assert (t = match r1 with
              | Ok _ => ERefreshCredentials :: t1 ++
                  [EWriteState (<["currently_syncing":=JNull]> (state ctx1))]
              | Raise _ => ERefreshCredentials :: t1
              end) as -> by (destruct r1 as [[]|]; by simplify_eq).
  split.
  - intros id schema keys Hin.
    destruct (Hin1 _ Hin) as [Hin'|[Hne _]]; [|by destruct (Hne id schema keys)].
    destruct (Hs _ _ _ Hin') as (stream & Hstream & <- & -> & Hload).
    destruct (Hsel _ Hstream). by exists stream.
  - intros id out Hin.
    destruct (Hin1 _ Hin) as [Hin'|[_ Hne]]; [|by destruct (Hne id out)].
    destruct (Hx _ _ Hin') as (stream & Hstream & <-).
    destruct (Hsel _ Hstream). split; [|done].
    by apply list_elem_of_fmap_2.
Qed.

Lemma markers_app t1 t2 : markers (t1 ++ t2) = markers t1 ++ markers t2.
Proof. unfold markers. by rewrite written_app, fmap_app. Qed.

Lemma for_each_sync_stream_markers streams ctx ctx' t :
  for_each streams sync_stream ctx = (Ok (), ctx', t) →
  markers t = (λ s, Some (JStr (tap_stream_id s))) <$> streams.
Proof.
  revert ctx t. induction streams as [|stream streams IH]; intros ctx t.
  { by intros [= <- <-]. }
  rewrite for_each_cons, sync_stream_unfold. simpl.
  destruct (load_schema (tap_stream_id stream)) as [schema|e]; [|done].
  destruct (stream_sync stream _) as [[[[]|e] ctx2] out]; [|done].
  destruct (for_each streams _ ctx2) as [[r2 ctx3] t2] eqn:Hrest.
  intros [= -> <- <-].
  etrans; [apply (markers_app [_; _; _; _])|]. rewrite (IH _ _ Hrest).
  unfold markers. simpl. by rewrite lookup_insert_eq.
Qed.

(** X6.  When [sync] returns, it wrote the state once for each stream
    of the working set, in order and with [currently_syncing] set to
    that stream, and once more at the end with [currently_syncing] set
    to [None]; it wrote no other state. *)
Theorem sync_markers ctx streams ctx' t :
  working_set ctx = Ok streams →
  sync ctx = (Ok (), ctx', t) →
  markers t =
    ((λ s, Some (JStr (tap_stream_id s))) <$> streams) ++ [Some JNull].
Proof.
  intros Hws. rewrite sync_unfold, Hws.
  destruct (refresh_credentials (config ctx)) as [cfg|e]; [simpl|done].
  destruct (for_each streams sync_stream _) as [[[[]|e] ctx1] t1] eqn:Hloop;
    intros [= <- <-].
  apply for_each_sync_stream_markers in Hloop.
  etrans; [apply (markers_app [_])|]. rewrite markers_app, Hloop.
  unfold markers. simpl. by rewrite lookup_insert_eq.
Qed.

(** X7.  [sync] refreshes the credentials before anything else; when
    the refresh raises, [sync] raises that exception with the context
    as it was and nothing else done. *)
Theorem sync_refreshes_first ctx r ctx' t :
  sync ctx = (r, ctx', t) →
  head t = Some ERefreshCredentials ∧
  (∀ e, refresh_credentials (config ctx) = Raise e →
        r = Raise e ∧ ctx' = ctx ∧ t = [ERefreshCredentials]).
Proof.
  rewrite sync_unfold.
  destruct (refresh_credentials (config ctx)) as [cfg|e]; simpl.
  - destruct (working_set ctx) as [streams|e]; [|by intros [= <- <- <-]].
    by destruct (for_each streams sync_stream _) as [[[[]|e] ctx1] t1];
      intros [= <- <- <-].
  - intros [= <- <- <-]. split; [done|]. by intros ? [= <-].
Qed.

End sync_facts.

(** ** [main_impl], part by part *)

Section main_facts.
Context `{Platform} `{Process}.

Local Ltac trace_all_step :=
  lazymatch goal with
  | |- trace_all _ (mbind _ _) => apply trace_all_bind; [|intros ?]
  | |- trace_all _ (mret _) => apply trace_all_ret
  | |- trace_all _ (emit _) => by apply trace_all_emit
  | |- trace_all _ (for_each _ _) => apply trace_all_for_each; intros ?
  | |- trace_all _ (with_context _ _ _ _) => apply trace_all_with_context
  | |- trace_all _ (if ?b then _ else _) => destruct b
  | |- trace_all _ (match ?x with _ => _ end) => destruct x
  | |- trace_all _ (lift _) => by apply trace_all_silent
  | |- trace_all _ (gets _) => by apply trace_all_silent
  | |- trace_all _ (modify _) => by apply trace_all_silent
  end.

Lemma main_impl_unfold cfg0 :
  main_impl cfg0 =
  match parse_args REQUIRED_CONFIG_KEYS with
  | Raise e => (Raise e, cfg0, [])
  | Ok args =>
      match secrets_in (args_config args) with
      | (Raise e, cfg1, t1) => (Raise e, cfg1, t1)
      | (Ok _, cfg1, t1) =>
          match run_mode args cfg1 with
          | (Raise e, cfg2, t2) => (Raise e, cfg2, t1 ++ t2)
          | (Ok _, cfg2, t2) =>
              let '(r, cfg3, t3) := secrets_out cfg2 in
              (r, cfg3, t1 ++ t2 ++ t3)
          end
      end
  end.
Proof.
  unfold main_impl, secrets_in, secrets_out. unfold_M.
  destruct (parse_args _) as [args|e]; [|done]. simpl.
  destruct secret_manager_enabled; simpl.
  - destruct (read_secrets _) as [[[[]|e] cfg1] t1]; [|done].
    destruct (run_mode args cfg1) as [[[[]|e] cfg2] t2]; [|done].
    by destruct (write_back_secret cfg2) as [[r3 cfg3] t3].
  - destruct (run_mode args _) as [[[[]|e] cfg2] t2]; [|done].
    by rewrite app_nil_r.
Qed.

Lemma sync_no_request : trace_all no_request sync.
Proof.
  unfold sync, sync_stream, state_set, state_get, load_and_write_schema.
  repeat trace_all_step;
    try (intros ctx; unfold ctx_refresh_credentials, on_config,
           ctx_write_state, call_stream_sync; simpl;
         repeat case_match; simplify_eq/=; by repeat constructor).
Qed.

Lemma discover_no_request : trace_all no_request discover.
Proof.
  intros ctx. rewrite discover_unfold.
  repeat case_match; simplify_eq/=; by repeat constructor.
Qed.

Lemma run_mode_no_request args : trace_all no_request (run_mode args).
Proof.
  unfold run_mode.
  repeat (trace_all_step || apply discover_no_request || apply sync_no_request).
Qed.

(** X8.  Unless the environment variable [GOOGLE_SECRET_MANAGER] is
    there and reads [true] in lower case, a run of [main_impl] sends no
    request to the secret manager: it reads no secret, adds no version
    and destroys none. *)
Theorem no_secret_manager_no_request cfg0 r cfg t :
  secret_manager_enabled = false →
  main_impl cfg0 = (r, cfg, t) →
  Forall no_request t.
Proof.
  intros Hoff. rewrite main_impl_unfold. unfold secrets_in, secrets_out.
  rewrite Hoff. destruct (parse_args _) as [args|e]; [|by intros [= <- <- <-]].
  unfold_M. pose proof (run_mode_no_request args (args_config args)) as Hmode.
  destruct (run_mode args _) as [[[[]|e] cfg2] t2]; simpl in Hmode;
    intros [= <- <- <-]; by rewrite ?app_nil_r.
Qed.



Lemma write_back_secret_no_sync_event : trace_all no_sync_event write_back_secret.
Proof.
  intros cfg. rewrite write_back_secret_unfold. simpl.
  repeat case_match; simplify_eq/=; by repeat constructor.
Qed.


(** X18.  Reading the secrets changes three keys of the configuration
    at most, [refresh_token], [client_id] and [client_secret], however
    it ends.  When it returns, it asked for the latest version of the
    two secrets the environment names, the refresh token first;
    [refresh_token] is the payload of the first, [client_id] and
    [client_secret] are the entries of the JSON document in the
    second. *)
Theorem read_secrets_overrides cfg r cfg' t :
  read_secrets cfg = (r, cfg', t) →
  (∀ k, k ∉ ["refresh_token"; "client_id"; "client_secret"] →
        cfg' !! k = cfg !! k) ∧
  (r = Ok () →
   ∃ name oauth token text doc id secret log,
     environ !! "SECRET_XERO_REFRESH_TOKEN" = Some name ∧
     environ !! "SECRET_XERO_OAUTH_CREDENTIALS" = Some oauth ∧
     access_secret_version (name +:+ "/versions/latest") = Ok token ∧
     access_secret_version (oauth +:+ "/versions/latest") = Ok text ∧
     json_loads text = Ok doc ∧
     subscript doc "client_id" = Ok id ∧
     subscript doc "client_secret" = Ok secret ∧
     cfg' !! "refresh_token" = Some (JStr token) ∧
     cfg' !! "client_id" = Some id ∧
     cfg' !! "client_secret" = Some secret ∧
     t = [ELogInfo log;
          EAccessSecretVersion (name +:+ "/versions/latest");
          EAccessSecretVersion (oauth +:+ "/versions/latest")]).
Proof.
  unfold read_secrets, environ_get, client_access_secret_version, config_set.
  unfold_M. intros Hrun.
  assert (∀ k, k ∉ ["refresh_token"; "client_id"; "client_secret"] →
            k ≠ "refresh_token" ∧ k ≠ "client_id" ∧ k ≠ "client_secret")
    as Hkeys.
  { intros k Hk. split_and!; intros ->; apply Hk;
      repeat (first [apply list_elem_of_here|apply list_elem_of_further]). }
  destruct (from_service_account_file _) as [[]|?]; simplify_eq/=; [|done].
  destruct (environ !! "SECRET_XERO_REFRESH_TOKEN") as [name|];
    simplify_eq/=; [|done].
  destruct (environ !! "SECRET_XERO_OAUTH_CREDENTIALS") as [oauth|];
    simplify_eq/=; [|done].
  destruct (access_secret_version (name +:+ "/versions/latest"))
    as [token|?] eqn:Htoken; simplify_eq/=; [|done].
  destruct (access_secret_version (oauth +:+ "/versions/latest"))
    as [text|?] eqn:Htext; simplify_eq/=.
  2:{ split; [|done]. intros k (? & _ & _)%Hkeys. by rewrite lookup_insert_ne. }
  destruct (json_loads text) as [doc|?] eqn:Hdoc; simplify_eq/=.
  2:{ split; [|done]. intros k (? & _ & _)%Hkeys. by rewrite lookup_insert_ne. }
  destruct (subscript doc "client_id") as [id|?] eqn:Hid; simplify_eq/=.
  2:{ split; [|done]. intros k (? & _ & _)%Hkeys. by rewrite lookup_insert_ne. }
  destruct (subscript doc "client_secret") as [secret|?] eqn:Hsecret;
    simplify_eq/=.
  2:{ split; [|done]. intros k (? & ? & _)%Hkeys.
      by rewrite !lookup_insert_ne. }
  split.
  - intros k (? & ? & ?)%Hkeys. by rewrite !lookup_insert_ne.
  - intros _. exists name, oauth, token, text, doc, id, secret. eexists.
    split_and!; try done.
    + by rewrite 2!lookup_insert_ne, lookup_insert_eq.
    + by rewrite lookup_insert_ne, lookup_insert_eq.
    + by rewrite lookup_insert_eq.
Qed.

(** A request that changes the secret store belongs to
    [write_back_secret], run after the mode went through. *)
Lemma main_impl_secret_write cfg0 r cfg t ev :
  main_impl cfg0 = (r, cfg, t) →
  ev ∈ t → is_secret_write ev = true →
  ∃ args cfg1 t1 cfg2 t2 t3,
    parse_args REQUIRED_CONFIG_KEYS = Ok args ∧
    secrets_in (args_config args) = (Ok (), cfg1, t1) ∧
    run_mode args cfg1 = (Ok (), cfg2, t2) ∧
    write_back_secret cfg2 = (r, cfg, t3) ∧
    t = t1 ++ t2 ++ t3 ∧ ev ∈ t3 ∧ Forall quiet (t1 ++ t2).
Proof.
  rewrite main_impl_unfold. intros Hrun Hev Hwrite.
  assert (∀ l, Forall quiet l → ev ∉ l) as Hquiet.
  { intros l Hl Hin. apply (proj1 (Forall_forall _ _) Hl) in Hin.
    unfold quiet in Hin. congruence. }
  destruct (parse_args _) as [args|e]; [|simplify_eq; by apply elem_of_nil in Hev].
  assert (trace_all quiet secrets_in) as Hin.
  { unfold secrets_in. destruct secret_manager_enabled;
      [apply read_secrets_quiet|apply trace_all_ret]. }
  specialize (Hin (args_config args)).
  destruct (secrets_in _) as [[[[]|e] cfg1] t1] eqn:Hsecrets; simpl in Hin.
  2:{ simplify_eq. by destruct (Hquiet _ Hin). }
  pose proof (run_mode_quiet args cfg1) as Hmode.
  destruct (run_mode args cfg1) as [[[[]|e] cfg2] t2] eqn:Hrun_mode; simpl in Hmode.
  2:{ simplify_eq. destruct (Hquiet (t1 ++ t2)); [by apply Forall_app|done]. }
  unfold secrets_out in Hrun. destruct secret_manager_enabled.
  - destruct (write_back_secret cfg2) as [[r3 cfg3] t3] eqn:Hback.
    simplify_eq. exists args, cfg1, t1, cfg2, t2, t3.
    split_and!; try done; [|by apply Forall_app].
    apply elem_of_app in Hev as [?|Hev]; [by destruct (Hquiet t1)|].
    apply elem_of_app in Hev as [?|Hev]; [by destruct (Hquiet t2)|done].
  - unfold_M. simplify_eq. rewrite app_nil_r in Hev.
    destruct (Hquiet (t1 ++ t2)); [by apply Forall_app|done].
Qed.

Lemma written_no_sync_event t : Forall no_sync_event t → written t = [].
Proof.
  induction 1 as [|ev t Hev _ IH]; [done|].
  unfold written in *. by destruct ev.
Qed.

Lemma sync_returns_persisted ctx ctx' t :
  sync ctx = (Ok (), ctx', t) →
  ∃ st, persisted t = Some st ∧ st !! "currently_syncing" = Some JNull.
Proof.
  rewrite sync_unfold.
  destruct (refresh_credentials (config ctx)) as [cfg|e]; [simpl|done].
  destruct (working_set ctx) as [streams|e]; [|done].
  destruct (for_each streams sync_stream _) as [[[[]|e] ctx1] t1]; [|done].
  intros [= <- <-]. eexists. split; [|apply lookup_insert_eq].
  apply (persisted_app (_ :: _) [_]). done.
Qed.

Lemma bind_returns {S A B} (m : M S A) (f : A → M S B) s b s2 t :
  (m ≫= f) s = (Ok b, s2, t) →
  ∃ a s1 t1 t2, m s = (Ok a, s1, t1) ∧ f a s1 = (Ok b, s2, t2) ∧ t = t1 ++ t2.
Proof.
  unfold mbind, M_bind. destruct (m s) as [[[a|e] s1] t1]; [|done].
  destruct (f a s1) as [[r s2'] t2] eqn:Hf. intros [= -> <- <-].
  by exists a, s1, t1, t2.
Qed.

Lemma run_mode_sync_persisted args cfg1 cfg2 t2 :
  args_discover args = false →
  run_mode args cfg1 = (Ok (), cfg2, t2) →
  ∃ st, persisted t2 = Some st ∧ st !! "currently_syncing" = Some JNull.
Proof.
  intros Hd. unfold run_mode. rewrite Hd.
  intros (cat & cfg1' & t1 & t & _ & Hsync & ->)%bind_returns.
  unfold with_context in Hsync.
  destruct (sync _) as [[r ctx'] tsync] eqn:Hrun.
  injection Hsync as -> <- <-.
  destruct (sync_returns_persisted _ _ _ Hrun) as (st & Hst & Hm).
  exists st. split; [|done]. by apply persisted_app.
Qed.

(** What [write_back_secret] does, by what the secret manager
    answers. *)
Lemma write_back_secret_outcome cfg2 r cfg t3 :
  write_back_secret cfg2 = (r, cfg, t3) →
  cfg = cfg2 ∧
  (secret_writes t3 = [] ∨
   ∃ parent payload log,
     environ !! "SECRET_XERO_REFRESH_TOKEN" = Some parent ∧
     cfg2 !! "refresh_token" = Some (JStr payload) ∧
     match add_secret_version parent payload ≫=
             (λ name, py_int (pop_last (split "/" name))) with
     | Raise e =>
         r = Raise e ∧
         t3 = [ELogInfo log; EAddSecretVersion parent payload]
     | Ok N =>
         let old := parent +:+ "/versions/" +:+ py_str_of_int (N - 1) in
         (∃ name, add_secret_version parent payload = Ok name ∧
                  py_int (pop_last (split "/" name)) = Ok N) ∧
         match destroy_secret_version old with
         | Raise e =>
             r = Raise e ∧
             t3 = [ELogInfo log; EAddSecretVersion parent payload;
                   EDestroySecretVersion old]
         | Ok _ =>
             r = Ok () ∧
             ∃ log', t3 = [ELogInfo log; EAddSecretVersion parent payload;
                           EDestroySecretVersion old; ELogInfo log']
         end
     end).
Proof.
  rewrite write_back_secret_unfold. simpl.
  destruct (environ !! "SECRET_XERO_REFRESH_TOKEN") as [secret|];
    [|intros [= <- <- <-]; by split; [|left]].
  destruct (cfg2 !! "refresh_token") as [refresh_token|] eqn:Htoken;
    [|intros [= <- <- <-]; by split; [|left]].
  destruct (encode refresh_token) as [payload|e] eqn:Hencode;
    [|intros [= <- <- <-]; by split; [|left]].
  assert (refresh_token = JStr payload) as ->.
  { destruct refresh_token; simplify_eq/=. done. }
  intros Hrun. assert (cfg = cfg2) as ->.
  { repeat case_match; by simplify_eq. }
  split; [done|]. right. exists secret, payload. eexists.
  split_and!; [done..|].
  destruct (add_secret_version secret payload) as [name|e] eqn:Hadd;
    cbn [mbind result_bind]; [|by simplify_eq].
  destruct (py_int (pop_last (split "/" name))) as [N|e] eqn:HN;
    [|by simplify_eq].
  simpl. split; [by exists name|].
  destruct (destroy_secret_version _) as [[]|e]; simplify_eq; eauto.
Qed.

Lemma elem_of_secret_writes ev t :
  ev ∈ t → is_secret_write ev = true → ev ∈ secret_writes t.
Proof. intros. by apply list_elem_of_filter. Qed.

(** X10.  In sync mode the refresh token is written back only after
    the whole cycle: when a run adds a secret version, the state it
    wrote last has [currently_syncing] set to [None]. *)
Theorem rotation_follows_completed_sync args cfg0 r cfg t parent payload :
  parse_args REQUIRED_CONFIG_KEYS = Ok args →
  args_discover args = false →
  main_impl cfg0 = (r, cfg, t) →
  EAddSecretVersion parent payload ∈ t →
  ∃ st, persisted t = Some st ∧ st !! "currently_syncing" = Some JNull.
Proof.
  intros Hargs Hd Hrun Hadd.
  destruct (main_impl_secret_write _ _ _ _ _ Hrun Hadd eq_refl)
    as (args' & cfg1 & t1 & cfg2 & t2 & t3 & Hargs' & _ & Hmode & Hback & -> & _ & _).
  rewrite Hargs in Hargs'. injection Hargs' as <-.
  destruct (run_mode_sync_persisted _ _ _ _ Hd Hmode) as (st & Hst & Hm).
  exists st. split; [|done]. apply persisted_app.
  pose proof (write_back_secret_no_sync_event cfg2) as Hnone.
  rewrite Hback in Hnone. simpl in Hnone.
  unfold persisted in *. by rewrite written_app, (written_no_sync_event t3), app_nil_r.
Qed.

Local Ltac one_of Hin :=
  repeat (apply elem_of_cons in Hin as [?|Hin]; [by simplify_eq|]);
  by apply elem_of_nil in Hin.

(** A run that holds a request that changes the secret store. *)
Lemma main_impl_write_back cfg0 r cfg t ev :
  main_impl cfg0 = (r, cfg, t) →
  ev ∈ t → is_secret_write ev = true →
  ∃ t0 t3 parent payload log,
    t = t0 ++ t3 ∧ Forall quiet t0 ∧ ev ∈ t3 ∧
    EAddSecretVersion parent payload ∈ t3 ∧
    environ !! "SECRET_XERO_REFRESH_TOKEN" = Some parent ∧
    cfg !! "refresh_token" = Some (JStr payload) ∧
    match add_secret_version parent payload ≫=
            (λ name, py_int (pop_last (split "/" name))) with
    | Raise e =>
        r = Raise e ∧
        t3 = [ELogInfo log; EAddSecretVersion parent payload]
    | Ok N =>
        let old := parent +:+ "/versions/" +:+ py_str_of_int (N - 1) in
        (∃ name, add_secret_version parent payload = Ok name ∧
                 py_int (pop_last (split "/" name)) = Ok N) ∧
        match destroy_secret_version old with
        | Raise e =>
            r = Raise e ∧
            t3 = [ELogInfo log; EAddSecretVersion parent payload;
                  EDestroySecretVersion old]
        | Ok _ =>
            r = Ok () ∧
            ∃ log', t3 = [ELogInfo log; EAddSecretVersion parent payload;
                          EDestroySecretVersion old; ELogInfo log']
        end
    end.
Proof.
  intros Hrun Hev Hwrite.
  destruct (main_impl_secret_write _ _ _ _ _ Hrun Hev Hwrite)
    as (args & cfg1 & t1 & cfg2 & t2 & t3 & _ & _ & _ & Hback & -> & Hin & Hq).
  destruct (write_back_secret_outcome _ _ _ _ Hback)
    as [-> [Hnone|(parent & payload & log & Henv & Htoken & Hcases)]].
  { apply elem_of_secret_writes in Hin; [|done]. rewrite Hnone in Hin.
    by apply elem_of_nil in Hin. }
  exists (t1 ++ t2), t3, parent, payload, log.
  split_and!; [by rewrite app_assoc|done..| |done|done|done].
  destruct (add_secret_version parent payload ≫= _) as [N|e].
  - simpl in Hcases. destruct Hcases as [_ Hcases].
    destruct (destroy_secret_version _) as [[]|e'].
    + destruct Hcases as (_ & log' & ->).
      apply list_elem_of_further, list_elem_of_here.
    + destruct Hcases as (_ & ->).
      apply list_elem_of_further, list_elem_of_here.
  - destruct Hcases as [_ ->]. apply list_elem_of_further, list_elem_of_here.
Qed.

(** X11.  A run of [main_impl] asks to destroy a secret version only
    after it added one and was answered with a name that ends in an
    integer [N]; it then asks for version [N - 1] of the secret it added
    to. *)
Theorem destroy_follows_add cfg0 r cfg t name :
  main_impl cfg0 = (r, cfg, t) →
  EDestroySecretVersion name ∈ t →
  ∃ parent payload version N,
    EAddSecretVersion parent payload ∈ t ∧
    add_secret_version parent payload = Ok version ∧
    py_int (pop_last (split "/" version)) = Ok N ∧
    name = parent +:+ "/versions/" +:+ py_str_of_int (N - 1).
Proof.
  intros Hrun Hdestroy.
  destruct (main_impl_write_back _ _ _ _ _ Hrun Hdestroy eq_refl)
    as (t0 & t3 & parent & payload & log & -> & _ & Hin & Hadd & _ & _ & Hcases).
  destruct (add_secret_version parent payload ≫= _) as [N|e].
  2:{ destruct Hcases as [_ ->]. one_of Hin. }
  simpl in Hcases. destruct Hcases as [(version & Hversion & HN) Hcases].
  exists parent, payload, version, N.
  split_and!; [apply elem_of_app; by right|done..|].
  destruct (destroy_secret_version _) as [[]|e'].
  - destruct Hcases as (_ & log' & ->). one_of Hin.
  - destruct Hcases as (_ & ->). one_of Hin.
Qed.

(** X12.  The version a run of [main_impl] adds goes to the secret the
    environment names in [SECRET_XERO_REFRESH_TOKEN], and its payload is
    the refresh token of the configuration as the run leaves it. *)
Theorem written_token_is_current cfg0 r cfg t parent payload :
  main_impl cfg0 = (r, cfg, t) →
  EAddSecretVersion parent payload ∈ t →
  environ !! "SECRET_XERO_REFRESH_TOKEN" = Some parent ∧
  cfg !! "refresh_token" = Some (JStr payload).
Proof.
  intros Hrun Hadd.
  destruct (main_impl_write_back _ _ _ _ _ Hrun Hadd eq_refl)
    as (t0 & t3 & parent' & payload' & log & -> & _ & Hin & _ & Henv & Htoken
        & Hcases).
  assert (parent' = parent ∧ payload' = payload) as [-> ->]; [|done].
  destruct (add_secret_version parent' payload' ≫= _) as [N|e].
  - simpl in Hcases. destruct Hcases as [_ Hcases].
    destruct (destroy_secret_version _) as [[]|e'].
    + destruct Hcases as (_ & log' & ->). one_of Hin.
    + destruct Hcases as (_ & ->). one_of Hin.
  - destruct Hcases as [_ ->]. one_of Hin.
Qed.

(** X13.  When the request to add the version raises, or the name in
    its answer does not end in an integer, [main_impl] raises that
    exception and asks to destroy nothing. *)
Theorem rotation_without_version_number cfg0 r cfg t parent payload e :
  main_impl cfg0 = (r, cfg, t) →
  EAddSecretVersion parent payload ∈ t →
  add_secret_version parent payload ≫=
    (λ name, py_int (pop_last (split "/" name))) = Raise e →
  r = Raise e ∧ secret_writes t = [EAddSecretVersion parent payload].
Proof.
  intros Hrun Hadd Hfail.
  destruct (main_impl_write_back _ _ _ _ _ Hrun Hadd eq_refl)
    as (t0 & t3 & parent' & payload' & log & -> & Hquiet & Hin & _ & _ & _
        & Hcases).
  assert (parent' = parent ∧ payload' = payload) as [-> ->].
  { destruct (add_secret_version parent' payload' ≫= _) as [N|e'].
    - simpl in Hcases. destruct Hcases as [_ Hcases].
      destruct (destroy_secret_version _) as [[]|e''].
      + destruct Hcases as (_ & log' & ->). one_of Hin.
      + destruct Hcases as (_ & ->). one_of Hin.
    - destruct Hcases as [_ ->]. one_of Hin. }
  rewrite Hfail in Hcases. destruct Hcases as [-> ->].
  split; [done|]. by rewrite secret_writes_app, (secret_writes_quiet t0).
Qed.

End main_facts.

(** ** Version numbers in version names *)

Section version_facts.

Local Abbreviation chars := String.list_ascii_of_string.
Local Abbreviation digits d := (chars (NilEmpty.string_of_uint d)).

Lemma parse_digits_acc d acc :
  parse_digits (Z.pos acc) true (digits d) =
  Some (Z.pos (Pos.of_uint_acc d acc)).
Proof.
  revert acc. induction d as [|d IH|d IH|d IH|d IH|d IH|d IH|d IH|d IH|d IH|d IH];
    intros acc; [done|..];
    cbn [NilEmpty.string_of_uint String.list_ascii_of_string parse_digits
         Pos.of_uint_acc];
    (rewrite decide_False by done);
    match goal with
    | |- context [digit_of ?c] =>
        let k := eval vm_compute in (digit_of c) in
        change (digit_of c) with k; cbv iota beta
    end;
    rewrite <-IH; f_equal; lia.
Qed.

Lemma parse_digits_zero d b :
  b = true ∨ d ≠ Decimal.Nil →
  parse_digits 0 b (digits d) = Some (Z.of_N (Pos.of_uint d)).
Proof.
  revert b. induction d as [|d IH|d IH|d IH|d IH|d IH|d IH|d IH|d IH|d IH|d IH];
    intros b Hb.
  { by destruct Hb as [->|]. }
  { cbn [NilEmpty.string_of_uint String.list_ascii_of_string parse_digits
         Pos.of_uint].
    rewrite decide_False by done. apply IH. by left. }
  all: cbn [NilEmpty.string_of_uint String.list_ascii_of_string parse_digits
            Pos.of_uint];
    (rewrite decide_False by done);
    match goal with
    | |- context [digit_of ?c] =>
        let k := eval vm_compute in (digit_of c) in
        change (digit_of c) with k; cbv iota beta
    end;
    apply (parse_digits_acc d).
Qed.

Lemma digits_plain d : Forall (λ c, plain c = true ∧ c ≠ "-"%char ∧ c ≠ "+"%char)
                              (digits d).
Proof. induction d; simpl; by repeat constructor. Qed.

Lemma dropwhile_space_plain l :
  (∀ c, head l = Some c → is_space c = false) → dropwhile_space l = l.
Proof. destruct l as [|c l]; [done|]. intros Hc. simpl. by rewrite Hc. Qed.

Lemma strip_plain l : Forall (λ c, is_space c = false) l → strip l = l.
Proof.
  intros Hl. unfold strip.
  rewrite (dropwhile_space_plain l).
  2:{ intros c Hc%head_Some_elem_of. by apply (proj1 (Forall_forall _ _) Hl). }
  rewrite dropwhile_space_plain; [apply reverse_involutive|].
  intros c Hc%head_Some_elem_of. rewrite elem_of_reverse in Hc.
  by apply (proj1 (Forall_forall _ _) Hl).
Qed.

Lemma split_whole sep s : Forall (λ c, c ≠ sep) (chars s) → split sep s = [s].
Proof.
  induction s as [|c s IH]; [done|]. simpl.
  intros [Hc Hs]%Forall_cons. rewrite decide_False by done. by rewrite IH.
Qed.

Lemma split_append sep a b :
  ∃ piece pieces,
    split sep (a +:+ String sep b) = (piece :: pieces) ++ split sep b.
Proof.
  induction a as [|c a (piece & pieces & IH)]; simpl.
  - rewrite decide_True by done. by exists EmptyString, [].
  - rewrite IH. destruct (decide (c = sep)).
    + by exists EmptyString, (piece :: pieces).
    + by exists (String c piece), pieces.
Qed.

Lemma pop_last_split_append sep a b :
  Forall (λ c, c ≠ sep) (chars b) →
  pop_last (split sep (a +:+ String sep b)) = b.
Proof.
  intros Hb. destruct (split_append sep a b) as (piece & pieces & ->).
  unfold pop_last. rewrite last_app, (split_whole sep b Hb). done.
Qed.

Lemma py_int_py_str_of_int n : py_int (py_str_of_int n) = Ok n.
Proof.
  unfold py_str_of_int, py_int.
  assert (∀ d, strip (digits d) = digits d) as Hstrip.
  { intros d. apply strip_plain. eapply Forall_impl; [apply digits_plain|].
    intros c [Hc _]. unfold plain in Hc.
    by apply andb_true_iff in Hc as [[?%negb_true_iff _]%andb_true_iff _]. }
  assert (∀ p, ∃ c l, digits (Pos.to_uint p) = c :: l ∧
                      c ≠ "-"%char ∧ c ≠ "+"%char) as Hhead.
  { intros p. pose proof (digits_plain (Pos.to_uint p)) as Hp.
    pose proof (DecimalPos.Unsigned.to_uint_nonnil p) as Hnil.
    destruct (Pos.to_uint p); [done|..];
      apply Forall_cons in Hp as [(_ & ? & ?) _]; eauto. }
  assert (∀ p, parse_digits 0 false (digits (Pos.to_uint p)) = Some (Z.pos p))
    as Hparse.
  { intros p. rewrite parse_digits_zero.
    - by rewrite DecimalPos.Unsigned.of_to.
    - right. apply DecimalPos.Unsigned.to_uint_nonnil. }
  destruct n as [|p|p]; [done| |].
  - unfold Z.to_int, NilZero.string_of_int, NilZero.string_of_uint.
    pose proof (DecimalPos.Unsigned.to_uint_nonnil p) as Hnil.
    assert (match Pos.to_uint p with
            | Decimal.Nil => "0"
            | _ => NilEmpty.string_of_uint (Pos.to_uint p)
            end = NilEmpty.string_of_uint (Pos.to_uint p)) as ->
      by (by destruct (Pos.to_uint p)).
    rewrite Hstrip. destruct (Hhead p) as (c & l & Heq & Hminus & Hplus).
    rewrite Heq, !decide_False by done. by rewrite <-Heq, Hparse.
  - unfold Z.to_int, NilZero.string_of_int, NilZero.string_of_uint.
    pose proof (DecimalPos.Unsigned.to_uint_nonnil p) as Hnil.
    assert (match Pos.to_uint p with
            | Decimal.Nil => "0"
            | _ => NilEmpty.string_of_uint (Pos.to_uint p)
            end = NilEmpty.string_of_uint (Pos.to_uint p)) as ->
      by (by destruct (Pos.to_uint p)).
    change (chars (String "-" ?s)) with ("-"%char :: chars s).
    rewrite strip_plain.
    2:{ constructor; [done|]. eapply Forall_impl; [apply digits_plain|].
        intros c [Hc _]. unfold plain in Hc.
        by apply andb_true_iff in Hc as [[?%negb_true_iff _]%andb_true_iff _]. }
    rewrite decide_True by done. by rewrite Hparse.
Qed.

Lemma append_assoc (a b c : string) : (a +:+ b) +:+ c = a +:+ b +:+ c.
Proof.
  induction a as [|x a IH]; [done|].
  change (String x ((a +:+ b) +:+ c) = String x (a +:+ b +:+ c)).
  by rewrite IH.
Qed.

Lemma py_str_of_int_no_slash n :
  Forall (λ c, c ≠ "/"%char) (chars (py_str_of_int n)).
Proof.
  assert (∀ d, Forall (λ c, c ≠ "/"%char) (digits d)) as Hd.
  { intros d. eapply Forall_impl; [apply digits_plain|].
    intros c [Hc _]. unfold plain in Hc.
    by apply andb_true_iff in Hc as [[_ ?%bool_decide_eq_true]%andb_true_iff _]. }
  assert (∀ p, Forall (λ c, c ≠ "/"%char)
                 (chars (NilZero.string_of_uint (Pos.to_uint p)))) as Hp.
  { intros p. pose proof (DecimalPos.Unsigned.to_uint_nonnil p) as Hnil.
    unfold NilZero.string_of_uint.
    pose proof (Hd (Pos.to_uint p)). by destruct (Pos.to_uint p). }
  unfold py_str_of_int, Z.to_int, NilZero.string_of_int.
  destruct n as [|p|p]; [by repeat constructor|apply Hp|].
  constructor; [done|apply Hp].
Qed.

(** X14.  The number [main_impl] takes from the name of the new
    version is the version number: for a name that ends in
    [/versions/] and the decimal form of [N], splitting at [/], taking
    the last piece and reading it as an integer gives [N]. *)
Theorem version_number_of_name parent N :
  py_int (pop_last (split "/" (parent +:+ "/versions/" +:+ py_str_of_int N)))
  = Ok N.
Proof.
  replace (parent +:+ "/versions/" +:+ py_str_of_int N)
    with ((parent +:+ "/versions") +:+ String "/" (py_str_of_int N)).
  2:{ by rewrite append_assoc. }
  rewrite pop_last_split_append by apply py_str_of_int_no_slash.
  apply py_int_py_str_of_int.
Qed.

End version_facts.

(** ** [load_schema] and its dependencies *)

Section more_schema_facts.
Context `{Platform}.

Lemma load_refs_outcome load dependencies refs0 :
  match load_refs load dependencies refs0 with
  | Ok refs =>
      (∀ d, is_Some (refs !! d) ↔ is_Some (refs0 !! d) ∨ d ∈ dependencies) ∧
      (∀ d sub, refs !! d = Some sub →
                (load d = Ok sub ∧ d ∈ dependencies) ∨
                (refs0 !! d = Some sub ∧ d ∉ dependencies))
  | Raise e =>
      ∃ done d rest,
        dependencies = done ++ d :: rest ∧
        Forall (λ d', ∃ sub, load d' = Ok sub) done ∧
        load d = Raise e
  end.
Proof.
  revert refs0. induction dependencies as [|d rest IH]; intros refs0; simpl.
  { split; [intros d; rewrite elem_of_nil; tauto|].
    intros d sub Hd. right. split; [done|by intros ?%elem_of_nil]. }
  destruct (load d) as [sub|e] eqn:Hd; cbn [mbind result_bind].
  2:{ exists [], d, rest. by split_and!. }
  specialize (IH (<[d:=sub]> refs0)).
  destruct (load_refs load rest _) as [refs|e].
  - destruct IH as [Hdom Hsub]. split.
    + intros d'. rewrite Hdom, elem_of_cons, lookup_insert.
      case_decide; subst; split; intros; [by right; left|by left|..];
        destruct_or!; eauto; done.
    + intros d' sub' [[Hload Hin]|[Hlook Hnot]]%Hsub.
      * left. split; [done|by right].
      * rewrite lookup_insert in Hlook. case_decide; simplify_eq.
        -- left. split; [done|by left].
        -- right. split; [done|]. by intros [->|?]%elem_of_cons.
  - destruct IH as (done & d' & rest' & -> & Hdone & Hfail).
    exists (d :: done), d', rest'. split_and!; [done| |done].
    constructor; [by exists sub|done].
Qed.

(** X15.  What [load_schema] does with a schema file that is there,
    one frame being left for it.  Without dependencies it returns the
    document of the file and does not call the resolver.  With
    dependencies it loads each of them by the same procedure, in order:
    when one of them raises, [load_schema] raises that exception;
    otherwise it returns, or raises, what the resolver returns or
    raises for the document and a mapping that has the declared
    dependencies for keys, each with the schema loaded for it. *)
Theorem load_schema_at_outcome depth id file :
  load_json (schema_path id) = Ok file →
  let dependencies := default [] (tap_schema_dependencies file) in
  (dependencies = [] →
   load_schema_at (S depth) id = Ok (JObj (schema_body file))) ∧
  (dependencies ≠ [] →
   (∃ e done d rest,
      dependencies = done ++ d :: rest ∧
      load_schema_at depth d = Raise e ∧
      load_schema_at (S depth) id = Raise e) ∨
   (∃ refs,
      (∀ d, is_Some (refs !! d) ↔ d ∈ dependencies) ∧
      (∀ d sub, refs !! d = Some sub → load_schema_at depth d = Ok sub) ∧
      load_schema_at (S depth) id =
        resolve_schema_references (JObj (schema_body file)) refs)).
Proof.
  intros Hfile dependencies. simpl. rewrite Hfile. cbn [mbind result_bind].
  fold dependencies. split.
  - by intros ->.
  - intros Hdeps.
    pose proof (load_refs_outcome (load_schema_at depth) dependencies ∅) as Hout.
    destruct (load_refs (load_schema_at depth) dependencies ∅) as [refs|e].
    + right. exists refs. destruct Hout as [Hdom Hsub]. split_and!.
      * intros d. rewrite Hdom, lookup_empty. split; [|by right].
        by intros [[? ?]|?].
      * intros d sub [[? _]|[Hempty _]]%Hsub; [done|].
        by rewrite lookup_empty in Hempty.
      * cbn [mbind result_bind]. destruct (decide (dom refs = ∅)) as [Hempty|]; [|done].
        destruct dependencies as [|d rest]; [done|].
        assert (is_Some (refs !! d)) as Hd by (apply Hdom; right; left).
        apply elem_of_dom in Hd. rewrite Hempty in Hd.
        by apply not_elem_of_empty in Hd.
    + left. destruct Hout as (done & d & rest & Heq & _ & Hd).
      by exists e, done, d, rest.
Qed.

End more_schema_facts.

(** ** [load_metadata], the whole list *)

Section more_metadata_facts.

Lemma dict_set_absent {K V} `{EqDecision K} (k : K) (v : V) d :
  dict_get k d = None → dict_set k v d = d ++ [(k, v)].
Proof.
  induction d as [|[k' v'] d IH]; [done|]. simpl.
  destruct (decide (k' = k)); [done|]. intros Hd. by rewrite IH.
Qed.

Lemma dict_get_app_absent {K V} `{EqDecision K} (k k' : K) (v : V) d :
  k' ≠ k → dict_get k (d ++ [(k', v)]) = dict_get k d.
Proof.
  intros Hne. induction d as [|[k0 v0] d IH]; simpl.
  - by rewrite decide_False.
  - by rewrite IH.
Qed.

Lemma write_inclusions_fresh stream field_names (mdata : compiled_metadata) :
  NoDup field_names →
  (∀ f, f ∈ field_names → dict_get ["properties"; f] mdata = None) →
  write_inclusions stream field_names mdata =
    Ok (mdata ++ (field_entry stream <$> field_names)).
Proof.
  revert mdata. induction field_names as [|f rest IH]; intros mdata Hnodup Hfresh.
  { simpl. by rewrite app_nil_r. }
  apply NoDup_cons in Hnodup as [Hf Hrest].
  assert (write_inclusions stream (f :: rest) mdata =
          write_inclusions stream rest (mdata ++ [field_entry stream f])) as ->.
  { simpl. unfold metadata_write, field_entry, inclusion_class.
    rewrite (Hfresh f) by left.
    by destruct (is_automatic stream f);
      rewrite dict_set_absent by (apply Hfresh; left). }
  rewrite IH; [by rewrite <-app_assoc|done|].
  intros f' Hf'. unfold field_entry. rewrite dict_get_app_absent.
  - apply Hfresh. by right.
  - intros [= ->]. done.
Qed.

(** X16.  For a schema whose [properties] object has the fields [fs]
    (distinct, as the keys of a dictionary are), the metadata list is
    exactly: one entry for the root with the primary keys, the
    replication method and, when the bookmark key is set, the
    replication keys, in this order; then, in the order of [fs], one
    entry [("properties", f)] for each field with nothing but its
    inclusion. *)
Theorem load_metadata_whole stream kvs props :
  dict_get "properties" kvs = Some (JObj props) →
  NoDup props.*1 →
  load_metadata stream (JObj kvs) =
    Ok ({| breadcrumb := []; metadata := root_metadata stream |} ::
        ((λ f, {| breadcrumb := ["properties"; f];
                  metadata := [("inclusion", inclusion_class stream f)] |})
           <$> props.*1)).
Proof.
  intros Hprops Hnodup. unfold load_metadata, properties_keys. rewrite Hprops.
  assert (∀ root : list (string * json),
    (write_inclusions stream props.*1 [([], root)] ≫=
       λ mdata, Ok (metadata_to_list mdata)) =
    Ok ({| breadcrumb := []; metadata := root |} ::
        ((λ f, {| breadcrumb := ["properties"; f];
                  metadata := [("inclusion", inclusion_class stream f)] |})
           <$> props.*1))) as Hfields.
  { intros root. rewrite write_inclusions_fresh; [|done|done].
    cbn [mbind result_bind]. unfold metadata_to_list. simpl. do 2 f_equal.
    rewrite <-list_fmap_compose. by apply list_fmap_ext. }
  unfold root_metadata, bookmark_key_set.
  destruct (bookmark_key stream) as [k|]; [|apply Hfields].
  destruct (negb (String.eqb k EmptyString)); apply Hfields.
Qed.

(** X17.  Without a [properties] entry in the schema [load_metadata]
    raises [KeyError]; with a [properties] entry that is no object it
    raises [AttributeError]; with a schema that is no object it raises
    [TypeError]. *)
Theorem load_metadata_without_properties stream schema :
  (∀ kvs props, schema = JObj kvs →
                dict_get "properties" kvs ≠ Some (JObj props)) →
  load_metadata stream schema =
    Raise match schema with
          | JObj kvs =>
              match dict_get "properties" kvs with
              | Some _ => AttributeError
              | None => KeyError
              end
          | _ => TypeError
          end.
Proof.
  intros Hnone. unfold load_metadata.
  assert (∀ mdata : result compiled_metadata,
    (∃ m, mdata = Ok m) →
    (mdata ≫= λ mdata, properties_keys schema ≫= λ field_names,
       write_inclusions stream field_names mdata ≫= λ mdata,
       Ok (metadata_to_list mdata)) =
    Raise match schema with
          | JObj kvs =>
              match dict_get "properties" kvs with
              | Some _ => AttributeError
              | None => KeyError
              end
          | _ => TypeError
          end) as Hrest.
  { intros mdata [m ->]. cbn [mbind result_bind]. unfold properties_keys.
    destruct schema as [| | | | |kvs]; try done.
    destruct (dict_get "properties" kvs) as [[| | | | |props]|] eqn:Hp; try done.
    by destruct (Hnone kvs props). }
  simpl. unfold bookmark_key_set.
  destruct (bookmark_key stream) as [k|]; [|apply Hrest; eauto].
  destruct (negb (String.eqb k EmptyString)); apply Hrest; eauto.
Qed.

End more_metadata_facts.



(** * The sample installation *)

Local Ltac by_decide := apply (bool_decide_unpack _); vm_compute; exact I.

(** ** The sample resolver *)

Lemma ref_target_Some kvs id :
  Sample.ref_target kvs = Some id → id ∈ unresolved_refs (JObj kvs).
Proof.
  simpl. induction kvs as [|[k v] kvs IH]; [done|]. simpl.
  destruct (String.eqb k "$ref").
  - destruct v; try (intros ?%IH; by apply elem_of_app; right).
    intros [= ->]. apply list_elem_of_here.
  - intros ?%IH. apply elem_of_app. by right.
Qed.

Lemma ref_target_None kvs k id :
  Sample.ref_target kvs = None → (k, JStr id) ∈ kvs → String.eqb k "$ref" = false.
Proof.
  induction kvs as [|[k' v'] kvs IH]; [by intros _ ?%elem_of_nil|]. simpl.
  intros Hnone [[= <- <-]|Hin]%elem_of_cons.
  - by destruct (String.eqb k "$ref").
  - apply IH; [|done]. destruct (String.eqb k' "$ref"); [|done].
    by destruct v'.
Qed.

Lemma inline_refs_resolved refs doc :
  (∀ r, r ∈ unresolved_refs doc → is_Some (refs !! r)) →
  (∀ r d, refs !! r = Some d → unresolved_refs d = []) →
  unresolved_refs (Sample.inline_refs refs doc) = [].
Proof.
  intros Hrefs Hclean. revert doc Hrefs.
  induction doc as [| | | |xs IH|kvs IH] using json_nested_ind;
    intros Hrefs; try done.
  - simpl. apply flat_map_nil. intros x (y & <- & Hy)%list_elem_of_In%in_map_iff.
    apply list_elem_of_In in Hy.
    apply (proj1 (Forall_forall _ _) IH y Hy). intros r Hr.
    apply Hrefs. simpl. apply elem_of_flat_map. eauto.
  - simpl. destruct (Sample.ref_target kvs) as [id|] eqn:Htarget.
    + destruct (Hrefs id (ref_target_Some _ _ Htarget)) as [d Hd].
      rewrite Hd. simpl. by eapply Hclean.
    + simpl. apply flat_map_nil.
      intros x ([k v] & <- & Hy)%list_elem_of_In%in_map_iff.
      apply list_elem_of_In in Hy. simpl.
      destruct (String.eqb k "$ref") eqn:Hk.
      * destruct v; try done.
        by rewrite (ref_target_None _ _ _ Htarget Hy) in Hk.
      * apply (proj1 (Forall_forall _ _) IH _ Hy). intros r Hr.
        apply Hrefs. simpl. apply elem_of_flat_map. exists (k, v).
        split; [done|]. simpl. by rewrite Hk.
Qed.

Lemma resolve_leaves_no_reference schema refs :
  (∀ r, r ∈ unresolved_refs schema → is_Some (refs !! r)) →
  (∀ r doc, refs !! r = Some doc → unresolved_refs doc = []) →
  ∃ doc, Sample.resolve schema refs = Ok doc ∧ unresolved_refs doc = [].
Proof.
  intros Hrefs Hclean. unfold Sample.resolve.
  assert (forallb (λ id, bool_decide (is_Some (refs !! id)))
            (unresolved_refs schema) = true) as ->.
  { apply forallb_forall. intros r Hr%list_elem_of_In.
    by apply bool_decide_eq_true, Hrefs. }
  eexists. split; [done|]. by apply inline_refs_resolved.
Qed.

(** ** Runs of the sample installation *)

Lemma run_eta {A B C : Type} (run : A * B * C) : run = (run.1.1, run.1.2, run.2).
Proof. by destruct run as [[??]?]. Qed.

Local Existing Instance Sample.platform.

(** The scenario of the specification: contacts and invoices selected,
    the marker on invoices; only invoices is extracted. *)
Example resuming_extracts_invoices_only :
  extracted (sync Sample.resuming).2 = ["invoices"] ∧
  state (sync Sample.resuming).1.2 !! "currently_syncing" = Some JNull.
Proof. split; by vm_compute. Qed.

(** Selecting invoices and bank transactions, in this order, extracts
    bank transactions and then invoices. *)
Example selection_never_reorders :
  extracted (sync Sample.invoices_first).2 = ["bank_transactions"; "invoices"].
Proof. by vm_compute. Qed.

(** C1, as the specification states it, fails on the stale marker: the
    exception is [ValueError], not [InvalidResumeStateError]. *)
Lemma stale_marker_raises_ValueError :
  (sync Sample.stale).1.1 = Raise ValueError ∧
  (sync Sample.stale).1.1 ≠ Raise InvalidResumeStateError.
Proof. split; [by vm_compute|]. vm_compute. discriminate. Qed.

Lemma sync_unknown_marker_raises_first_witness :
  ∃ e ctx',
    sync Sample.stale = (Raise e, ctx', [ERefreshCredentials]) ∧
    state ctx' = state Sample.stale ∧
    (∀ cfg, refresh_credentials (config Sample.stale) = Ok cfg →
            e = ValueError).
Proof.
  apply (sync_unknown_marker_raises_first Sample.stale "nonexistent_stream");
    [by vm_compute|done|by_decide].
Defined.




Lemma sync_steps_in_order_witness :
  (∀ pre id schema keys post,
     (sync Sample.invoices_first).2 =
       pre ++ EWriteSchema id schema keys :: post →
     ∃ pre' st, pre = pre' ++ [EWriteState st] ∧
                st !! "currently_syncing" = Some (JStr id)) ∧
  (∀ pre id out post,
     (sync Sample.invoices_first).2 = pre ++ EStreamSync id out :: post →
     ∃ pre' st schema keys msg,
       pre = pre' ++ [EWriteState st; EWriteSchema id schema keys;
                      ELogInfo msg] ∧
       st !! "currently_syncing" = Some (JStr id)) ∧
  ((sync Sample.invoices_first).1.1 = Ok () → ∀ streams stream,
     working_set Sample.invoices_first = Ok streams → stream ∈ streams →
     ∃ pre st schema keys msg out post,
       (sync Sample.invoices_first).2 =
         pre ++ [EWriteState st;
                 EWriteSchema (tap_stream_id stream) schema keys;
                 ELogInfo msg;
                 EStreamSync (tap_stream_id stream) out] ++ post ∧
       st !! "currently_syncing" = Some (JStr (tap_stream_id stream))).
Proof.
  exact (sync_steps_in_order Sample.invoices_first _ _ _
           (run_eta (sync Sample.invoices_first))).
Defined.

(** Both selected streams of that run have their steps. *)
Example invoices_first_steps :
  (sync Sample.invoices_first).1.1 = Ok () ∧
  working_set Sample.invoices_first =
    Ok [Sample.bank_transactions; Sample.invoices].
Proof. split; vm_compute; reflexivity. Qed.


(** ** Schemas and metadata of the sample installation *)

(** C3, as the specification states it, fails on the two files that
    name each other: the exception is [RecursionError], not
    [SchemaCycleError]. *)
Lemma cyclic_schema_raises_RecursionError :
  load_schema "loop_a" = Raise RecursionError ∧
  load_schema "loop_a" ≠ Raise SchemaCycleError.
Proof. split; [by vm_compute|]. vm_compute. discriminate. Qed.

Lemma load_schema_acyclic_or_recursion_error_witness :
  (∃ doc, load_schema "invoices" = Ok doc ∧ unresolved_refs doc = []) ∧
  load_schema "loop_c" = Raise RecursionError ∧
  (Exc "FileNotFoundError" = RecursionError ∨
   (∃ id', load_json (schema_path id') = Raise (Exc "FileNotFoundError")) ∨
   (∃ schema refs,
      resolve_schema_references schema refs =
        Raise (Exc "FileNotFoundError"))).
Proof.
  destruct (load_schema_acyclic_or_recursion_error (H:=Sample.platform))
    as (Hacyclic & Hcycle & Hraises).
  split_and!.
  - apply (Hacyclic (λ id, id ∈ ["contacts"; "invoices"])
             (λ id, if decide (id = "invoices") then 1 else 0)).
    + intros id [->|[->|[]%elem_of_nil]%elem_of_cons]%elem_of_cons.
      * exists Sample.contacts_file. split_and!; [by vm_compute| |].
        -- by intros d []%elem_of_nil.
        -- by intros r []%elem_of_nil.
      * exists Sample.invoices_file. split_and!; [by vm_compute| |].
        -- intros d ->%list_elem_of_singleton. split; [by_decide|].
           vm_compute. lia.
        -- by intros r Hr.
    + apply resolve_leaves_no_reference.
    + by_decide.
    + vm_compute. lia.
  - apply (Hcycle (λ id, id ∈ ["loop_a"; "loop_b"; "loop_c"])); [|by_decide].
    intros id
      [->|[->|[->|[]%elem_of_nil]%elem_of_cons]%elem_of_cons]%elem_of_cons.
    + exists Sample.loop_a_file, [], "loop_b", [].
      split_and!; [by vm_compute|done|by_decide|by intros b []%elem_of_nil].
    + exists Sample.loop_b_file, [], "loop_a", [].
      split_and!; [by vm_compute|done|by_decide|by intros b []%elem_of_nil].
    + exists Sample.loop_c_file, ["contacts"], "loop_a", [].
      split_and!; [by vm_compute|done|by_decide|].
      intros b ->%list_elem_of_singleton. exists 1. eexists.
      vm_compute. reflexivity.
  - apply (Hraises "loop_d"). vm_compute. reflexivity.
Defined.

(** The cycle is entered through the second dependency of [loop_c],
    after the first was loaded; in [loop_d] the first dependency has no
    file, and the cycle behind it is never reached. *)
Example cycle_behind_a_dependency :
  load_schema "contacts" = Ok (JObj (schema_body Sample.contacts_file)) ∧
  load_schema "loop_c" = Raise RecursionError ∧
  load_schema "loop_d" = Raise (Exc "FileNotFoundError").
Proof. split_and!; vm_compute; reflexivity. Qed.

Lemma load_metadata_rules_witness :
  ∃ mdata,
    load_metadata Sample.invoices
      (JObj (schema_body Sample.invoices_file)) = Ok mdata ∧
    metadata_lookup mdata ["properties"; "InvoiceID"] "inclusion" =
      Some (JStr "automatic") ∧
    metadata_lookup mdata ["properties"; "UpdatedDateUTC"] "inclusion" =
      Some (JStr "automatic") ∧
    metadata_lookup mdata ["properties"; "Contact"] "inclusion" =
      Some (JStr "available") ∧
    metadata_lookup mdata [] "table-key-properties" =
      Some (JArr [JStr "InvoiceID"]) ∧
    metadata_lookup mdata [] "forced-replication-method" =
      Some (JStr "INCREMENTAL") ∧
    metadata_lookup mdata [] "valid-replication-keys" =
      Some (JArr [JStr "UpdatedDateUTC"]).
Proof.
  destruct (load_metadata_rules Sample.invoices
              (schema_body Sample.invoices_file)
              [("InvoiceID", Sample.string_type);
               ("Contact", JObj [("$ref", JStr "contacts")]);
               ("UpdatedDateUTC", Sample.string_type)] eq_refl)
    as (mdata & Hload & Hfields & Hpk & Hmethod & _ & Hkeys).
  exists mdata. split_and!; [done| | | |done|done|by apply Hkeys].
  - apply Hfields; [by_decide|]. left. by_decide.
  - apply Hfields; [by_decide|]. by right.
  - apply Hfields; [by_decide|].
    intros [Hin|Heq]; [|done]. by apply list_elem_of_singleton in Hin.
Defined.

(** A stream without a bookmark key has no [valid-replication-keys]. *)
Example currencies_have_no_replication_key :
  ∃ mdata,
    load_metadata Sample.currencies
      (JObj (schema_body Sample.currencies_file)) = Ok mdata ∧
    metadata_lookup mdata [] "valid-replication-keys" = None ∧
    metadata_lookup mdata [] "forced-replication-method" =
      Some (JStr "FULL_TABLE").
Proof. eexists. split_and!; by vm_compute. Qed.

(** ** The rotation of the secret in the sample installation *)

Lemma rotation_destroys_previous_version_witness :
  secret_writes (main_impl (H0:=Sample.process) ∅).2 =
    [EAddSecretVersion "projects/p/secrets/refresh" "token-2";
     EDestroySecretVersion
       ("projects/p/secrets/refresh" +:+ "/versions/" +:+
        py_str_of_int (7 - 1))].
Proof.
  refine (rotation_destroys_previous_version (H0:=Sample.process) ∅ _ _ _
            "projects/p/secrets/refresh" "token-2"
            "projects/p/secrets/refresh/versions/7" 7
            (run_eta _) _ _ _).
  - apply (list_elem_of_lookup_2 _ 10). vm_compute. reflexivity.
  - vm_compute. reflexivity.
  - vm_compute. reflexivity.
Defined.

(** The version destroyed is version 6. *)
Example sample_rotation_requests :
  secret_writes (main_impl (H0:=Sample.process) ∅).2 =
    [EAddSecretVersion "projects/p/secrets/refresh" "token-2";
     EDestroySecretVersion "projects/p/secrets/refresh/versions/6"].
Proof. vm_compute. reflexivity. Qed.

(** C4, as the specification states it, fails on the first rotation of
    a secret: the new version is written, the request to destroy
    version 0 fails, and the process ends with that exception. *)
Lemma failed_destroy_ends_the_process :
  (main (H0:=Sample.first_rotation) ∅).2 !! 10 =
    Some (EAddSecretVersion "projects/p/secrets/refresh" "token-2") ∧
  destroy_secret_version (Process:=Sample.first_rotation)
    "projects/p/secrets/refresh/versions/0" = Raise (Exc "NotFound") ∧
  (main (H0:=Sample.first_rotation) ∅).1.1 = Raise (Exc "NotFound") ∧
  (main (H0:=Sample.first_rotation) ∅).1.1 ≠ Ok ().
Proof. split_and!; [by vm_compute..|]. vm_compute. discriminate. Qed.

Lemma destroy_failure_is_fatal_witness :
  (main_impl (H0:=Sample.first_rotation) ∅).1.1 = Raise (Exc "NotFound") ∧
  last (main_impl (H0:=Sample.first_rotation) ∅).2 =
    Some (EDestroySecretVersion
            ("projects/p/secrets/refresh" +:+ "/versions/" +:+
             py_str_of_int (1 - 1))) ∧
  main (H0:=Sample.first_rotation) ∅ =
    (Raise (Exc "NotFound"),
     (main_impl (H0:=Sample.first_rotation) ∅).1.2,
     (main_impl (H0:=Sample.first_rotation) ∅).2 ++
       [ELogCritical (Exc "NotFound")]).
Proof.
  refine (destroy_failure_is_fatal (H0:=Sample.first_rotation) ∅ _ _ _
            "projects/p/secrets/refresh" "token-2"
            "projects/p/secrets/refresh/versions/1" 1 (Exc "NotFound")
            (run_eta _) _ _ _ _).
  - apply (list_elem_of_lookup_2 _ 10). vm_compute. reflexivity.
  - vm_compute. reflexivity.
  - vm_compute. reflexivity.
  - vm_compute. reflexivity.
Defined.

(** ** Discovery in the sample installations *)

Lemma discover_catalog_witness :
  Forall2 discovered all_streams
    (Sample.value_of (discover Sample.resuming).1.1 []) ∧
  (discover Sample.resuming).2 = [ECheckPlatformAccess] ∧
  state (discover Sample.resuming).1.2 = state Sample.resuming ∧
  catalog (discover Sample.resuming).1.2 = catalog Sample.resuming.
Proof.
  refine (discover_catalog Sample.resuming _ _ _ _).
  vm_compute. reflexivity.
Defined.

Lemma discover_raises_witness :
  (discover (H:=Sample.broken_platform) Sample.all_selected).2 =
    [ECheckPlatformAccess] ∧
  (check_platform_access (Platform:=Sample.broken_platform)
     (config Sample.all_selected) = Raise (Exc "FileNotFoundError") ∨
   ∃ cfg done stream rest,
     check_platform_access (Platform:=Sample.broken_platform)
       (config Sample.all_selected) = Ok cfg ∧
     all_streams (Platform:=Sample.broken_platform) =
       done ++ stream :: rest ∧
     Forall (λ s, ∃ entry, discovered (H:=Sample.broken_platform) s entry)
       done ∧
     discovery_fails (H:=Sample.broken_platform) stream
       (Exc "FileNotFoundError")).
Proof.
  refine (discover_raises (H:=Sample.broken_platform) Sample.all_selected
            (Exc "FileNotFoundError")
            (discover (H:=Sample.broken_platform) Sample.all_selected).1.2
            _ _).
  vm_compute. reflexivity.
Defined.

(** The schema of payments loads and its metadata is built, but its
    [items] is a string: the conversion raises and [discover] with
    it. *)
Example malformed_schema_stops_discover :
  (discover (H:=Sample.malformed_platform) Sample.all_selected).1.1 =
    Raise AttributeError ∧
  (∃ mdata,
     load_schema (H:=Sample.malformed_platform) "payments" =
       Ok (JObj (schema_body Sample.payments_file)) ∧
     load_metadata Sample.payments (JObj (schema_body Sample.payments_file)) =
       Ok mdata ∧
     schema_from_dict (Platform:=Sample.malformed_platform)
       (JObj (schema_body Sample.payments_file)) = Raise AttributeError).
Proof.
  split; [vm_compute; reflexivity|]. eexists.
  split_and!; vm_compute; reflexivity.
Qed.

(** ** Runs of [sync] that stop or go through *)

Lemma sync_failure_keeps_checkpoint_witness :
  ∃ done failed rest st,
    [Sample.bank_transactions; Sample.journals; Sample.invoices] =
      done ++ failed :: rest ∧
    persisted (sync (H:=Sample.broken_platform) Sample.all_selected).2 =
      Some st ∧
    st !! "currently_syncing" = Some (JStr (tap_stream_id failed)) ∧
    ((load_schema (H:=Sample.broken_platform) (tap_stream_id failed) =
        Raise (Exc "FileNotFoundError") ∧
      extracted (sync (H:=Sample.broken_platform) Sample.all_selected).2 =
        tap_stream_id <$> done) ∨
     ((∃ schema, load_schema (H:=Sample.broken_platform)
                   (tap_stream_id failed) = Ok schema) ∧
      extracted (sync (H:=Sample.broken_platform) Sample.all_selected).2 =
        tap_stream_id <$> (done ++ [failed]))).
Proof.
  refine (sync_failure_keeps_checkpoint (H:=Sample.broken_platform)
            Sample.all_selected
            (<["refresh_token" := JStr "token-2"]> Sample.a_config)
            [Sample.bank_transactions; Sample.journals; Sample.invoices]
            (Exc "FileNotFoundError")
            (sync (H:=Sample.broken_platform) Sample.all_selected).1.2
            _ _ _ _).
  - reflexivity.
  - vm_compute. reflexivity.
  - vm_compute. reflexivity.
Defined.

(** The marker of that run is on the stream without a schema file. *)
Example broken_run_stops_at_journals :
  extracted (sync (H:=Sample.broken_platform) Sample.all_selected).2 =
    ["bank_transactions"] ∧
  (λ st : gmap string json, st !! "currently_syncing") <$>
    persisted (sync (H:=Sample.broken_platform) Sample.all_selected).2 =
    Some (Some (JStr "journals")).
Proof. split; vm_compute; reflexivity. Qed.

Lemma sync_keeps_other_keys_witness :
  state (sync Sample.bookmarked).1.2 !! "bookmarks" =
  state Sample.bookmarked !! "bookmarks".
Proof.
  refine (sync_keeps_other_keys "bookmarks" Sample.bookmarked _ _ _ _ _
            (run_eta _)).
  - done.
  - intros s c Hs.
    change (s ∈ [Sample.bank_transactions; Sample.contacts; Sample.invoices])
      in Hs.
    repeat (apply elem_of_cons in Hs as [->|Hs]; [done|]).
    by apply elem_of_nil in Hs.
Defined.

Lemma sync_emits_only_selected_witness :
  (∀ id schema keys,
     EWriteSchema id schema keys ∈ (sync Sample.invoices_first).2 →
     ∃ stream, stream ∈ all_streams ∧ tap_stream_id stream = id ∧
               keys = pk_fields stream ∧ load_schema id = Ok schema ∧
               id ∈ stream_ids_to_sync (catalog Sample.invoices_first)) ∧
  (∀ id out, EStreamSync id out ∈ (sync Sample.invoices_first).2 →
     id ∈ all_stream_ids ∧
     id ∈ stream_ids_to_sync (catalog Sample.invoices_first)).
Proof.
  exact (sync_emits_only_selected Sample.invoices_first _ _ _ (run_eta _)).
Defined.

Lemma sync_markers_witness :
  markers (sync Sample.invoices_first).2 =
    ((λ s, Some (JStr (tap_stream_id s))) <$>
       [Sample.bank_transactions; Sample.invoices]) ++ [Some JNull].
Proof.
  refine (sync_markers Sample.invoices_first
            [Sample.bank_transactions; Sample.invoices]
            (sync Sample.invoices_first).1.2 _ _ _).
  - vm_compute. reflexivity.
  - vm_compute. reflexivity.
Defined.

Lemma sync_refreshes_first_witness :
  head (sync Sample.stale).2 = Some ERefreshCredentials ∧
  (∀ e, refresh_credentials (config Sample.stale) = Raise e →
        (sync Sample.stale).1.1 = Raise e ∧
        (sync Sample.stale).1.2 = Sample.stale ∧
        (sync Sample.stale).2 = [ERefreshCredentials]).
Proof.
  exact (sync_refreshes_first Sample.stale _ _ _ (run_eta _)).
Defined.

(** ** Runs of [main_impl] in the sample installations *)

Lemma no_secret_manager_no_request_witness :
  Forall no_request (main_impl (H0:=Sample.local_process) ∅).2.
Proof.
  refine (no_secret_manager_no_request (H0:=Sample.local_process) ∅ _ _ _ _
            (run_eta _)).
  vm_compute. reflexivity.
Defined.


Lemma read_secrets_overrides_witness :
  (∀ k, k ∉ ["refresh_token"; "client_id"; "client_secret"] →
        (read_secrets (H0:=Sample.process) Sample.a_config).1.2 !! k =
        Sample.a_config !! k) ∧
  ((read_secrets (H0:=Sample.process) Sample.a_config).1.1 = Ok () →
   ∃ name oauth token text doc id secret log,
     environ (Process:=Sample.process) !! "SECRET_XERO_REFRESH_TOKEN" =
       Some name ∧
     environ (Process:=Sample.process) !! "SECRET_XERO_OAUTH_CREDENTIALS" =
       Some oauth ∧
     access_secret_version (Process:=Sample.process)
       (name +:+ "/versions/latest") = Ok token ∧
     access_secret_version (Process:=Sample.process)
       (oauth +:+ "/versions/latest") = Ok text ∧
     json_loads (Process:=Sample.process) text = Ok doc ∧
     subscript doc "client_id" = Ok id ∧
     subscript doc "client_secret" = Ok secret ∧
     (read_secrets (H0:=Sample.process) Sample.a_config).1.2
       !! "refresh_token" = Some (JStr token) ∧
     (read_secrets (H0:=Sample.process) Sample.a_config).1.2
       !! "client_id" = Some id ∧
     (read_secrets (H0:=Sample.process) Sample.a_config).1.2
       !! "client_secret" = Some secret ∧
     (read_secrets (H0:=Sample.process) Sample.a_config).2 =
       [ELogInfo log;
        EAccessSecretVersion (name +:+ "/versions/latest");
        EAccessSecretVersion (oauth +:+ "/versions/latest")]).
Proof.
  exact (read_secrets_overrides (H0:=Sample.process) Sample.a_config _ _ _
           (run_eta _)).
Defined.

Lemma rotation_follows_completed_sync_witness :
  ∃ st, persisted (main_impl (H0:=Sample.process) ∅).2 = Some st ∧
        st !! "currently_syncing" = Some JNull.
Proof.
  refine (rotation_follows_completed_sync (H0:=Sample.process)
            Sample.arguments ∅ _ _ _
            "projects/p/secrets/refresh" "token-2" _ _ (run_eta _) _).
  - reflexivity.
  - reflexivity.
  - apply (list_elem_of_lookup_2 _ 10). vm_compute. reflexivity.
Defined.

Lemma destroy_follows_add_witness :
  ∃ parent payload version N,
    EAddSecretVersion parent payload ∈ (main_impl (H0:=Sample.process) ∅).2 ∧
    add_secret_version (Process:=Sample.process) parent payload = Ok version ∧
    py_int (pop_last (split "/" version)) = Ok N ∧
    "projects/p/secrets/refresh/versions/6" =
      parent +:+ "/versions/" +:+ py_str_of_int (N - 1).
Proof.
  refine (destroy_follows_add (H0:=Sample.process) ∅ _ _ _
            "projects/p/secrets/refresh/versions/6" (run_eta _) _).
  apply (list_elem_of_lookup_2 _ 11). vm_compute. reflexivity.
Defined.

Lemma written_token_is_current_witness :
  environ (Process:=Sample.process) !! "SECRET_XERO_REFRESH_TOKEN" =
    Some "projects/p/secrets/refresh" ∧
  (main_impl (H0:=Sample.process) ∅).1.2 !! "refresh_token" =
    Some (JStr "token-2").
Proof.
  refine (written_token_is_current (H0:=Sample.process) ∅ _ _ _
            "projects/p/secrets/refresh" "token-2" (run_eta _) _).
  apply (list_elem_of_lookup_2 _ 10). vm_compute. reflexivity.
Defined.

Lemma rotation_without_version_number_witness :
  (main_impl (H0:=Sample.unnumbered_process) ∅).1.1 = Raise ValueError ∧
  secret_writes (main_impl (H0:=Sample.unnumbered_process) ∅).2 =
    [EAddSecretVersion "projects/p/secrets/refresh" "token-2"].
Proof.
  refine (rotation_without_version_number (H0:=Sample.unnumbered_process) ∅
            _ _ _ "projects/p/secrets/refresh" "token-2" ValueError
            (run_eta _) _ _).
  - apply (list_elem_of_lookup_2 _ 10). vm_compute. reflexivity.
  - vm_compute. reflexivity.
Defined.

(** ** Schemas and metadata, once more *)

Lemma load_schema_at_outcome_witness :
  (default [] (tap_schema_dependencies Sample.invoices_file) = [] →
   load_schema_at 2 "invoices" =
     Ok (JObj (schema_body Sample.invoices_file))) ∧
  (default [] (tap_schema_dependencies Sample.invoices_file) ≠ [] →
   (∃ e done d rest,
      default [] (tap_schema_dependencies Sample.invoices_file) =
        done ++ d :: rest ∧
      load_schema_at 1 d = Raise e ∧
      load_schema_at 2 "invoices" = Raise e) ∨
   (∃ refs,
      (∀ d, is_Some (refs !! d) ↔
            d ∈ default [] (tap_schema_dependencies Sample.invoices_file)) ∧
      (∀ d sub, refs !! d = Some sub → load_schema_at 1 d = Ok sub) ∧
      load_schema_at 2 "invoices" =
        resolve_schema_references
          (JObj (schema_body Sample.invoices_file)) refs)).
Proof.
  refine (load_schema_at_outcome 1 "invoices" Sample.invoices_file _).
  vm_compute. reflexivity.
Defined.

Lemma load_metadata_whole_witness :
  load_metadata Sample.currencies
    (JObj (schema_body Sample.currencies_file)) =
    Ok ({| breadcrumb := []; metadata := root_metadata Sample.currencies |} ::
        ((λ f, {| breadcrumb := ["properties"; f];
                  metadata :=
                    [("inclusion", inclusion_class Sample.currencies f)] |})
           <$> [("Code", Sample.string_type);
                ("Description", Sample.string_type)].*1)).
Proof.
  refine (load_metadata_whole Sample.currencies
            (schema_body Sample.currencies_file) _ _ _).
  - reflexivity.
  - by_decide.
Defined.

Lemma load_metadata_without_properties_witness :
  load_metadata Sample.currencies (JObj [("type", JStr "object")]) =
    Raise match JObj [("type", JStr "object")] with
          | JObj kvs =>
              match dict_get "properties" kvs with
              | Some _ => AttributeError
              | None => KeyError
              end
          | _ => TypeError
          end.
Proof.
  refine (load_metadata_without_properties Sample.currencies _ _).
  intros kvs props [= <-]. vm_compute. discriminate.
Defined.

(** The three cases of a schema without usable properties. *)
Example load_metadata_errors :
  load_metadata Sample.currencies (JObj [("type", JStr "object")]) =
    Raise KeyError ∧
  load_metadata Sample.currencies (JObj [("properties", JArr [])]) =
    Raise AttributeError ∧
  load_metadata Sample.currencies JNull = Raise TypeError.
Proof. split_and!; vm_compute; reflexivity. Qed.
